(** * WikiBacon: the console game loop ([main.py]) and the path-finding core

    The game loop of [main.py] is embedded as an interaction tree over the
    calls it makes to its environment: the console ([print], [input]), the
    word list file, [random.choice], and the three operations it imports from
    the [wiki] module ([get_page], [find_short_path], [set_hard_mode]).

    The [wiki] module itself is not among the sources; its path finder is
    modelled in [Module Wiki] from the specification, over finite maps and
    sets. *)

From Stdlib Require Import String Ascii List Arith NArith Lia DecimalString.
From stdpp Require Import base gmap sets list strings.
From ITree Require Import ITree.

Local Open Scope string_scope.
Local Open Scope list_scope.

(** String concatenation, [s + t] in Python. *)
Infix "+++" := String.append (right associativity, at level 60).

(** ** Pages

    The page objects handed out by [get_page] carry the attributes the mock of
    [conftest.py] sets: [title], [summary], [links], [categories]. *)

Record Page : Type := mkPage {
  title : string;
  summary : string;
  links : list string;
  categories : list string
}.

(** A Python variable holding a page: [None] (also the falsy "not found"
    result of [get_page]) or a page object. *)
Definition PyPage : Type := option Page.

(** The result of [find_short_path]: [None] or a list of titles. *)
Definition PyPath : Type := option (list string).

(** Python truthiness: [None] is falsy, an object without [__bool__] and
    [__len__] is truthy, a list is truthy when it is not empty. *)
Definition truthy_page (v : PyPage) : bool :=
  match v with
  | Some _ => true
  | None => false
  end.

Definition truthy_path (v : PyPath) : bool :=
  match v with
  | Some (_ :: _) => true
  | Some [] => false
  | None => false
  end.

(** [len(path)] where [path] is a list. *)
Definition len (v : PyPath) : nat :=
  match v with
  | Some l => length l
  | None => 0
  end.

(** ** String helpers of the Python runtime

    A [str] is a sequence of characters (code points). It is represented by
    its UTF-8 encoding, the form in which the literals of the program are
    written here: a character is a lead byte followed by its continuation
    bytes, the bytes of the form [10xxxxxx]. *)

Definition is_continuation (c : ascii) : bool :=
  let n := nat_of_ascii c in (Nat.leb 128 n && Nat.ltb n 192)%bool.

Definition starts_with_continuation (s : string) : bool :=
  match s with
  | String d _ => is_continuation d
  | EmptyString => false
  end.

(** The characters of a string, each as the string of its bytes. *)
Fixpoint chars (s : string) : list string :=
  match s with
  | EmptyString => []
  | String c rest =>
      if starts_with_continuation rest then
        match chars rest with
        | ch :: l => String c ch :: l
        | [] => [String c EmptyString]
        end
      else String c EmptyString :: chars rest
  end.

(** The string made of a list of characters. *)
Fixpoint of_chars (l : list string) : string :=
  match l with
  | [] => EmptyString
  | ch :: rest => ch +++ of_chars rest
  end.

(** [len(s)] for a string: the number of its characters. *)
Definition str_len (s : string) : nat := length (chars s).

(** [s[:n]]: the first [n] characters of [s]. *)
Definition slice_to (n : nat) (s : string) : string := of_chars (take n (chars s)).

(** [str(n)] for a non-negative integer. *)
Definition str_of_nat (n : nat) : string :=
  NilEmpty.string_of_uint (Nat.to_uint n).

(** [sep.join(l)] *)
Fixpoint join (sep : string) (l : list string) : string :=
  match l with
  | [] => ""
  | [x] => x
  | x :: rest => x +++ sep +++ join sep rest
  end.

(** The code point of a character: the payload bits of its bytes, when the
    bytes are the UTF-8 encoding of a code point (a lead byte with as many
    continuation bytes as it announces, in the shortest form). *)
Definition code_point (ch : string) : option N :=
  match ch with
  | EmptyString => None
  | String c tail =>
      let n := N_of_ascii c in
      let value (lead : N) : N :=
        fold_left (fun acc d => (acc * 64 + N_of_ascii d mod 64)%N)
                  (list_ascii_of_string tail) lead in
      let encoded (continuation : nat) (least : N) (v : N) : option N :=
        if (Nat.eqb (String.length tail) continuation && N.leb least v)%bool
        then Some v else None in
      if N.ltb n 128 then encoded 0 0%N n
      else if N.ltb n 192 then None
      else if N.ltb n 224 then encoded 1 0x80%N (value (n - 192)%N)
      else if N.ltb n 240 then encoded 2 0x800%N (value (n - 224)%N)
      else if N.ltb n 248 then encoded 3 0x10000%N (value (n - 240)%N)
      else None
  end.

(** [str.isspace()] on one character: the whitespace characters of Unicode,
    which are those [str.strip()] removes. *)
Definition is_space (cp : N) : bool :=
  ((9 <=? cp) && (cp <=? 13) || (28 <=? cp) && (cp <=? 32) ||
   (cp =? 0x85) || (cp =? 0xA0) || (cp =? 0x1680) ||
   (0x2000 <=? cp) && (cp <=? 0x200A) ||
   (cp =? 0x2028) || (cp =? 0x2029) || (cp =? 0x202F) || (cp =? 0x205F) ||
   (cp =? 0x3000))%N%bool.

Definition is_space_char (ch : string) : bool :=
  match code_point ch with
  | Some cp => is_space cp
  | None => false
  end.

(** The characters of [s.lstrip()]. *)
Fixpoint lstrip_chars (l : list string) : list string :=
  match l with
  | ch :: rest => if is_space_char ch then lstrip_chars rest else l
  | [] => []
  end.

(** [s.strip()]: [s] without the whitespace characters at its two ends. *)
Definition strip (s : string) : string :=
  of_chars (rev (lstrip_chars (rev (lstrip_chars (chars s))))).

(** Strings made of continuation bytes only. *)
Fixpoint all_continuation (t : string) : Prop :=
  match t with
  | EmptyString => True
  | String d t' => is_continuation d = true /\ all_continuation t'
  end.

(** A character: a byte followed by continuation bytes; a leading character
    starts with a byte that is not a continuation byte. *)
Definition character (ch : string) : Prop :=
  exists c t, ch = String c t /\ all_continuation t.

Definition leading (ch : string) : Prop :=
  exists c t, ch = String c t /\ is_continuation c = false /\ all_continuation t.

(** The lists of characters that strings split into. *)
Definition well_formed (l : list string) : Prop :=
  match l with
  | [] => True
  | ch :: rest => character ch /\ Forall leading rest
  end.

(** ** The environment of the game loop

    The calls [main] makes, each with the type of its answer. A call of the
    console or of the file system may raise instead of answering (see
    [fails] below); [main] has no handler, so that such an exception ends the
    run. *)

Variant gameE : Type -> Type :=
| Print (text : string) : gameE unit               (* print(text) *)
| Input (prompt : string) : gameE string           (* input(prompt) *)
| ReadLines (path : string) : gameE (list string)  (* open(path).read().splitlines() *)
| RandomChoice (seq : list string) : gameE string  (* random.choice(seq), seq not empty *)
| SetHardMode (enabled : bool) : gameE unit        (* wiki.set_hard_mode *)
| GetPage (name : string) : gameE PyPage           (* wiki.get_page *)
| FindShortPath (start target : PyPage) : gameE PyPath  (* wiki.find_short_path *)
| Raise (exn : string) : gameE Empty_set.          (* an uncaught exception *)

Declare Scope game_scope.
Delimit Scope game_scope with game.
Notation "x <- t1 ;; t2" := (ITree.bind t1 (fun x => t2))
  (at level 100, t1 at next level, t2 at level 200, right associativity) : game_scope.
Notation "t1 ;; t2" := (ITree.bind t1 (fun _ => t2))
  (at level 100, t2 at level 200, right associativity) : game_scope.
Local Open Scope game_scope.

Definition game (R : Type) : Type := itree gameE R.

Definition print (text : string) : game unit := ITree.trigger (Print text).
Definition input (prompt : string) : game string := ITree.trigger (Input prompt).
Definition set_hard_mode (enabled : bool) : game unit := ITree.trigger (SetHardMode enabled).
Definition get_page (name : string) : game PyPage := ITree.trigger (GetPage name).
Definition find_short_path (start target : PyPage) : game PyPath :=
  ITree.trigger (FindShortPath start target).

Definition raise {R : Type} (exn : string) : game R :=
  v <- ITree.trigger (Raise exn);; match v : Empty_set with end.

(** [random.choice] raises [IndexError] on an empty sequence. *)
Definition random_choice (seq : list string) : game string :=
  match seq with
  | [] => raise "IndexError"
  | _ :: _ => ITree.trigger (RandomChoice seq)
  end.

(** Attribute access [v.f]; [None] has no attribute [title] or [summary]. *)
Definition getattr {A : Type} (f : Page -> A) (v : PyPage) : game A :=
  match v with
  | Some p => Ret (f p)
  | None => raise "AttributeError"
  end.

(** [page = None; while not page: page = body] *)
Definition while_not (body : game PyPage) : game PyPage :=
  ITree.iter (fun page : PyPage =>
    if truthy_page page then Ret (inr page)
    else (p <- body;; Ret (inl p))) None.

(** ** [main] *)

(** The newline character. *)
Definition nl : string := String "010" "".

(** The score of one side (lines 66-75 and 77-86): the header, then either the
    path and its length, or the two "no path" lines and the score 100. *)
Definition report (header : string) (path : PyPath) : game nat :=
  print header;;
  if truthy_path path then
    print (join (nl +++ " -> ") (match path with Some l => l | None => [] end));;
    print ("Length: " +++ str_of_nat (len path) +++ nl);;
    Ret (len path)
  else
    print "No path found (or search timed out).";;
    print ("Length: ∞ (Infinite)" +++ nl);;
    Ret 100.

(** The local variables of one iteration of the game loop, as they stand
    after the comparison of the scores. *)
Record Round : Type := mkRound {
  start_page : PyPage;
  computer_page : PyPage;
  user_page : PyPage;
  computer_path : PyPath;
  user_path : PyPath;
  computer_score : nat;
  user_score : nat
}.

(** The two lines printed for a page once its retry loop has ended (lines
    40-41, 49-50 and 61-62): the label with [page.title], then the first 500
    characters of [page.summary]. *)
Definition show_page (label : string) (page : PyPage) : game unit :=
  t <- getattr title page;;
  print (label +++ t +++ nl);;
  s <- getattr summary page;;
  print ("Summary: " +++ slice_to 500 s +++ "..." +++ nl).

(** Lines 34-93: the body of [while True], up to the verdict. *)
Definition round (common_words : list string) : game Round :=
  start_page <- while_not (
    start_word <- random_choice common_words;;
    get_page start_word);;
  show_page "The starting page is: " start_page;;
  computer_page <- while_not (
    computer_word <- random_choice common_words;;
    get_page computer_word);;
  show_page "The computer's page is: " computer_page;;
  user_page <- while_not (
    print "What would you like your page to be?";;
    user_page_name <- input "";;
    user_page <- get_page user_page_name;;
    (if truthy_page user_page then Ret tt
     else print ("Could not find page '" +++ user_page_name
                 +++ "'. Please try another page." +++ nl));;
    Ret user_page);;
  show_page "Your page is: " user_page;;
  print ("Calculating Bacon paths..." +++ nl);;
  computer_path <- find_short_path start_page computer_page;;
  computer_score <- report "Computer's path:" computer_path;;
  user_path <- find_short_path start_page user_page;;
  user_score <- report "Your path:" user_path;;
  (if Nat.ltb user_score computer_score then print "I win!"
   else if Nat.ltb computer_score user_score then print "You win!"
   else print "It's a tie!");;
  Ret (mkRound start_page computer_page user_page
               computer_path user_path computer_score user_score).

Definition welcome : game unit :=
  print (nl +++ nl +++ "🥓 Welcome to WikiBacon! 🥓" +++ nl);;
  print ("In this game, we start from a random Wikipedia page, and then we compete to see who can name a page that is *farthest away* from the original page." +++ nl);;
  print (nl +++ "Difficulty modes:");;
  print "  [1] Normal - Uses both links and categories";;
  print "  [2] Hard - Links only (no categories)".

Definition goodbye : game unit :=
  print (nl +++ "🥓 Thanks for playing! 🥓" +++ nl);;
  print ("WikiBacon is not affiliated with Wikipedia or the Wikimedia Foundation. To donate to Wikipedia and support their vision of an open internet that makes games like this possible, please visit https://donate.wikimedia.org/" +++ nl).

(** Lines 33-100: [while True], one [round] per iteration; the loop is left
    only by the [return] after the user types [q]. *)
Definition game_loop (common_words : list string) : game unit :=
  ITree.iter (fun _ : unit =>
    round common_words;;
    print (nl +++ nl +++ "Play again? Hit Enter for another round, or type 'q' to quit");;
    cmd <- input "";;
    if String.eqb cmd "q" then (goodbye;; Ret (inr tt))
    else Ret (inl tt)) tt.

Definition main : game unit :=
  welcome;;
  mode <- input "Choose mode (1 or 2, default=1): ";;
  let mode := strip mode in
  (if String.eqb mode "2" then
     set_hard_mode true;;
     print ("🔥 Hard mode activated! Categories disabled." +++ nl)
   else
     set_hard_mode false;;
     print ("✨ Normal mode selected." +++ nl));;
  print "Ready to play? Hit Enter to start, or type 'q' to quit";;
  cmd <- input "";;
  if String.eqb cmd "q" then Ret tt
  else
    common_words <- ITree.trigger (ReadLines "dictionary.txt");;
    game_loop common_words.

(** * The path-finding core ([wiki])

    The module [wiki], from which [main.py] imports [get_page],
    [find_short_path] and [set_hard_mode], is not among the sources. Its
    path finder is modelled here from the specification. *)

Module Wiki.

(** Modelled from the spec: the page source of [wiki] (section 4.1), which
    resolves a name to a page or reports that there is none. A fixed
    function stands for a fixed snapshot of the remote graph. *)
Definition PageSource : Type := string -> option Page.

(** Modelled from the spec: the identifier of a page (section 3), its
    canonical title. *)
Definition identifier (p : Page) : string := title p.

(** Modelled from the spec: the edge set of a page under a policy
    (section 3), absent with [wiki]: the links, and the categories too
    unless the policy is hard. *)
Definition EdgeSet (page : Page) (hard : bool) : list string :=
  if hard then links page else (links page ++ categories page)%list.

(** Modelled from the spec: the page cache of [wiki] (section 4.2), a map
    from titles to pages or to the marker of a title that did not resolve,
    filled on demand. *)
Definition get_or_fetch (source : PageSource) (cache : gmap string (option Page))
  (name : string) : option Page * gmap string (option Page) :=
  match cache !! name with
  | Some entry => (entry, cache)
  | None => let entry := source name in (entry, <[name := entry]> cache)
  end.

(** Modelled from the spec: the process-wide state of [wiki]: the edge
    policy (section 4.3), the page cache, and the configured effort cap, a
    maximum number of expanded titles (section 4.4). *)
Record Core : Type := mkCore {
  hard_mode : bool;
  page_cache : gmap string (option Page);
  max_expanded : nat
}.

(** Modelled from the spec: [set_hard_mode] of [wiki] (section 4.3). *)
Definition set_hard_mode (enabled : bool) (core : Core) : Core :=
  mkCore enabled (page_cache core) (max_expanded core).

(** Modelled from the spec: [get_page] of [wiki] (sections 4.1 and 6): a
    lookup through the cache. *)
Definition get_page (source : PageSource) (name : string) (core : Core)
  : option Page * Core :=
  let (page, cache') := get_or_fetch source (page_cache core) name in
  (page, mkCore (hard_mode core) cache' (max_expanded core)).

(** Modelled from the spec: the state of one search (section 3): the
    visited titles, the predecessor of each discovered title, and the cache;
    with them the number of titles expanded so far, which the effort cap
    bounds. The frontiers are arguments of the search loop. *)
Record SearchState : Type := mkSearchState {
  visited : gset string;
  predecessor : gmap string string;
  pages : gmap string (option Page);
  expanded : nat
}.

(** Modelled from the spec: the treatment of the edges of the title being
    expanded (section 4.4): each edge title not yet visited is marked
    visited, gets the current title as predecessor and joins the next
    frontier; the loop stops as soon as the target is produced. *)
Fixpoint discover (target current : string) (edges : list string)
  (visited : gset string) (predecessor : gmap string string) (next : list string)
  : bool * gset string * gmap string string * list string :=
  match edges with
  | [] => (false, visited, predecessor, next)
  | e :: rest =>
      if decide (e ∈ visited) then
        discover target current rest visited predecessor next
      else
        let visited' := {[e]} ∪ visited in
        let predecessor' := <[e := current]> predecessor in
        if String.eqb e target then
          (true, visited', predecessor', (next ++ [e])%list)
        else
          discover target current rest visited' predecessor' (next ++ [e])%list
  end.

(** Modelled from the spec: the walk along the predecessors from a title
    back to the start (section 4.4). The walk is bounded by [fuel] steps. *)
Fixpoint walk_back (fuel : nat) (predecessor : gmap string string)
  (start current : string) : option (list string) :=
  if String.eqb current start then Some [start]
  else
    match fuel with
    | 0 => None
    | S fuel' =>
        match predecessor !! current with
        | Some before =>
            option_map (cons current) (walk_back fuel' predecessor start before)
        | None => None
        end
    end.

(** Modelled from the spec: the reconstruction of the path (section 4.4):
    the predecessors from the target back to the start, reversed. A walk has
    no more steps than the predecessor map has entries. *)
Definition reconstruct (predecessor : gmap string string) (start target : string)
  : option (list string) :=
  option_map (@rev string) (walk_back (size predecessor) predecessor start target).

(** Modelled from the spec: the next title to expand (section 4.4): the
    head of the current frontier, or, once that is empty, the head of the
    next frontier, which becomes the current one (the round boundary). *)
Definition pick (frontier next : list string)
  : option (string * list string * list string) :=
  match frontier, next with
  | t :: frontier', _ => Some (t, frontier', next)
  | [], t :: next' => Some (t, next', [])
  | [], [] => None
  end.

(** Modelled from the spec: the expansion of one title (section 4.4): it is
    resolved through the cache, a title that does not resolve being a dead
    end; the edges of its page under the policy are then discovered. *)
Definition expand (source : PageSource) (hard : bool) (start target : string)
  (current : string) (next : list string) (st : SearchState)
  : option (list string) * list string * SearchState :=
  let (page, pages') := get_or_fetch source (pages st) current in
  match page with
  | None =>
      (None, next,
       mkSearchState (visited st) (predecessor st) pages' (S (expanded st)))
  | Some p =>
      let '(found, visited', predecessor', next') :=
        discover target current (EdgeSet p hard)
                 (visited st) (predecessor st) next in
      ((if found then reconstruct predecessor' start target else None),
       next',
       mkSearchState visited' predecessor' pages' (S (expanded st)))
  end.

(** Modelled from the spec: the breadth-first search (section 4.4), one
    expansion per step. It ends without a path when both frontiers are
    empty or when the budget of expansions is used up. *)
Fixpoint bfs (source : PageSource) (hard : bool) (start target : string)
  (budget : nat) (frontier next : list string) (st : SearchState)
  : option (list string) * SearchState :=
  match budget with
  | 0 => (None, st)
  | S budget' =>
      match pick frontier next with
      | None => (None, st)
      | Some (current, frontier', next0) =>
          match expand source hard start target current next0 st with
          | (Some path, _, st') => (Some path, st')
          | (None, next', st') =>
              bfs source hard start target budget' frontier' next' st'
          end
      end
  end.

(** Modelled from the spec: the search of [find_short_path] with its final
    state: the self-path case first, else the breadth-first search from the
    start title, under the policy and cap read when the search starts. *)
Definition search (source : PageSource) (core : Core) (start target : Page)
  : option (list string) * SearchState :=
  let st0 := mkSearchState {[identifier start]} ∅ (page_cache core) 0 in
  if String.eqb (identifier start) (identifier target) then
    (Some [title start], st0)
  else
    bfs source (hard_mode core) (identifier start) (identifier target)
        (max_expanded core) [identifier start] [] st0.

(** Modelled from the spec: [find_short_path] of [wiki] (sections 4.4 and
    6): the path as a list of titles, or [None] for "not connected"; the
    cache outlives the search. *)
Definition find_short_path (source : PageSource) (core : Core)
  (start target : Page) : option (list string) * Core :=
  let (result, st) := search source core start target in
  (result, mkCore (hard_mode core) (pages st) (max_expanded core)).

(** ** The graph of a snapshot *)

(** The edges of a title: those of its page, none when it does not resolve. *)
Definition edges (source : PageSource) (hard : bool) (name : string) : list string :=
  match source name with
  | Some p => EdgeSet p hard
  | None => []
  end.

(** [walk g s n v]: [v] is reached from [s] in exactly [n] hops. *)
Inductive walk (g : string -> list string) (s : string) : nat -> string -> Prop :=
| walk_here : walk g s 0 s
| walk_hop n u v : walk g s n u -> v ∈ g u -> walk g s (S n) v.

(** [dist g s v d]: the shortest-hop distance from [s] to [v] is [d]. *)
Definition dist (g : string -> list string) (s v : string) (d : nat) : Prop :=
  walk g s d v /\ forall m, walk g s m v -> d <= m.

(** [route g s l v]: [l] lists the titles of a path from [s] to [v]. *)
Inductive route (g : string -> list string) (s : string)
  : list string -> string -> Prop :=
| route_start : route g s [s] s
| route_step l u v : route g s l u -> v ∈ g u -> route g s (l ++ [v]) v.

(** The reference search: the titles reached in exactly 0, 1, 2, ... hops,
    one level after the other; the answer is the first level that holds the
    target, looked for in [rounds] levels beyond the given one. *)
Fixpoint reference_levels (g : string -> list string) (target : string)
  (level : list string) (depth rounds : nat) : option nat :=
  if decide (target ∈ level) then Some depth
  else
    match rounds with
    | 0 => None
    | S rounds' =>
        reference_levels g target (flat_map g level) (S depth) rounds'
    end.

Definition reference_bfs (g : string -> list string) (start target : string)
  (rounds : nat) : option nat :=
  reference_levels g target [start] 0 rounds.

(** The cache agrees with the snapshot. *)
Definition coherent (source : PageSource) (cache : gmap string (option Page)) : Prop :=
  forall name entry, cache !! name = Some entry -> entry = source name.

(** The titles reached from [s] in exactly [k] hops. *)
Fixpoint hops (g : string -> list string) (s : string) (k : nat) : list string :=
  match k with
  | 0 => [s]
  | S k' => flat_map g (hops g s k')
  end.

(** The titles within fewer than [n] hops of [s], level by level. *)
Definition near (g : string -> list string) (s : string) (n : nat) : list string :=
  flat_map (hops g s) (seq 0 n).

(** ** Sample snapshots *)

(** The scenario of the specification: [A] links to [B] and [C], both of
    which link to [D]. *)
Definition diamond : PageSource := fun name =>
  if String.eqb name "A" then Some (mkPage "A" "" ["B"; "C"] [])
  else if String.eqb name "B" then Some (mkPage "B" "" ["D"] [])
  else if String.eqb name "C" then Some (mkPage "C" "" ["D"] [])
  else if String.eqb name "D" then Some (mkPage "D" "" [] [])
  else None.

Definition fresh_core (hard : bool) (cap : nat) : Core := mkCore hard ∅ cap.

Definition diamond_a : Page := mkPage "A" "" ["B"; "C"] [].
Definition diamond_d : Page := mkPage "D" "" [] [].

(** An endless chain: every title links to the title one letter longer. *)
Definition chain : PageSource := fun name => Some (mkPage name "" [name +++ "a"] []).

Fixpoint chain_title (n : nat) : string :=
  match n with
  | 0 => "x"
  | S k => chain_title k +++ "a"
  end.

Definition chain_page (n : nat) : Page :=
  mkPage (chain_title n) "" [chain_title n +++ "a"] [].

End Wiki.

(** ** Runs of a game program

    A run is a finite sequence of calls to the environment, each with the
    answer the environment gave, together with how the sequence ends: the
    program returned, an exception was raised, or the program is still
    running (the sequence is a prefix of a longer or infinite behaviour). *)

Inductive call : Type :=
| Call {X : Type} (e : gameE X) (x : X).

Inductive ending (R : Type) : Type :=
| Returned (r : R)
| Raised (exn : string)
| Running.
Arguments Returned {R} r.
Arguments Raised {R} exn.
Arguments Running {R}.

(** What the environment may answer: [random.choice] picks an element of its
    argument; every other answer is unconstrained. *)
Definition feasible {X : Type} (e : gameE X) : X -> Prop :=
  match e in gameE X return X -> Prop with
  | RandomChoice seq => fun w => w ∈ seq
  | _ => fun _ => True
  end.

(** The exceptions a call may raise instead of answering. [input()] raises
    [EOFError] when the console has no further line; [open] raises an
    [OSError], such as [FileNotFoundError], when the file cannot be opened,
    and reading it raises [UnicodeDecodeError] when it cannot be decoded. The
    operations of [wiki] report failure by their result ([None]), not by an
    exception; [print], [set_hard_mode] and [random.choice] on a sequence
    that is not empty answer. Interrupts from the keyboard and failures of
    the output stream are outside the model. *)
Definition file_errors : list string :=
  ["FileNotFoundError"; "PermissionError"; "IsADirectoryError"; "OSError";
   "UnicodeDecodeError"].

Definition failures {X : Type} (e : gameE X) : list string :=
  match e with
  | Input _ => ["EOFError"]
  | ReadLines _ => file_errors
  | Raise exn => [exn]
  | _ => []
  end.

Definition fails {X : Type} (e : gameE X) (exn : string) : Prop :=
  exn ∈ failures e.

Inductive runF {R : Type} : itree' gameE R -> list call -> ending R -> Prop :=
| run_cut ot : runF ot [] Running
| run_ret r : runF (RetF r) [] (Returned r)
| run_fail X (e : gameE X) k exn : fails e exn -> runF (VisF e k) [] (Raised exn)
| run_tau t tr o : runF (observe t) tr o -> runF (TauF t) tr o
| run_vis X (e : gameE X) k x tr o :
    feasible e x -> runF (observe (k x)) tr o ->
    runF (VisF e k) (Call e x :: tr) o.

Definition run {R : Type} (t : game R) (tr : list call) (o : ending R) : Prop :=
  runF (observe t) tr o.

(** A run that did not return, seen from an enclosing program. *)
Definition cut {R S : Type} (o : ending R) : option (ending S) :=
  match o with
  | Returned _ => None
  | Raised exn => Some (Raised exn)
  | Running => Some Running
  end.

(** The runs of a loop [ITree.iter body i]: complete iterations, then one that
    leaves the loop or does not return. *)
Inductive iter_run {I R : Type} (body : I -> game (I + R)) :
  I -> list call -> ending R -> Prop :=
| iter_exit i tr r :
    run (body i) tr (Returned (inr r)) -> iter_run body i tr (Returned r)
| iter_again i j tr1 tr2 o :
    run (body i) tr1 (Returned (inl j)) -> iter_run body j tr2 o ->
    iter_run body i (tr1 ++ tr2) o
| iter_stop i tr o' o :
    run (body i) tr o' -> cut o' = Some o -> iter_run body i tr o.

(** ** A scripted environment

    [exec] runs a program against a list of answers, for at most [fuel]
    steps. Calls that return nothing consume no answer; the reply [RRaise]
    makes the call it meets raise, when that call can raise the exception. *)

Inductive reply : Type :=
| RString (s : string)
| RLines (l : list string)
| RPage (p : PyPage)
| RPath (p : PyPath)
| RRaise (exn : string).

Definition answer {X : Type} (e : gameE X) (script : list reply)
  : option (X * list reply) :=
  match e in gameE X return option (X * list reply) with
  | Print _ => Some (tt, script)
  | SetHardMode _ => Some (tt, script)
  | Input _ =>
      match script with
      | RString s :: rest => Some (s, rest)
      | _ => None
      end
  | ReadLines _ =>
      match script with
      | RLines l :: rest => Some (l, rest)
      | _ => None
      end
  | RandomChoice seq =>
      match script with
      | RString s :: rest => if decide (s ∈ seq) then Some (s, rest) else None
      | _ => None
      end
  | GetPage _ =>
      match script with
      | RPage p :: rest => Some (p, rest)
      | _ => None
      end
  | FindShortPath _ _ =>
      match script with
      | RPath p :: rest => Some (p, rest)
      | _ => None
      end
  | Raise _ => None
  end.

Definition failure {X : Type} (e : gameE X) (script : list reply) : option string :=
  match e, script with
  | Raise exn, _ => Some exn
  | _, RRaise exn :: _ => if decide (exn ∈ failures e) then Some exn else None
  | _, _ => None
  end.

Fixpoint exec {R : Type} (fuel : nat) (script : list reply) (t : game R)
  : list call * ending R :=
  match fuel with
  | 0 => ([], Running)
  | S fuel' =>
      match observe t with
      | RetF r => ([], Returned r)
      | TauF t' => exec fuel' script t'
      | VisF e k =>
          match answer e script with
          | Some (x, rest) =>
              let (tr, o) := exec fuel' rest (k x) in (Call e x :: tr, o)
          | None =>
              match failure e script with
              | Some exn => ([], Raised exn)
              | None => ([], Running)
              end
          end
      end
  end.

(** ** What a run shows *)

(** The searches of a run, in order: start, target and result. *)
Definition search_of (c : call) : list (PyPage * PyPage * PyPath) :=
  match c with
  | Call e x =>
      match e in gameE X return X -> list (PyPage * PyPage * PyPath) with
      | FindShortPath s t => fun r => [(s, t, r)]
      | _ => fun _ => []
      end x
  end.

Definition searches (tr : list call) : list (PyPage * PyPage * PyPath) :=
  flat_map search_of tr.

(** The page lookups of a run, in order: name and result. *)
Definition lookup_of (c : call) : list (string * PyPage) :=
  match c with
  | Call e x =>
      match e in gameE X return X -> list (string * PyPage) with
      | GetPage name => fun p => [(name, p)]
      | _ => fun _ => []
      end x
  end.

Definition lookups (tr : list call) : list (string * PyPage) :=
  flat_map lookup_of tr.

(** The policy settings of a run, in order. *)
Definition policy_of (c : call) : list bool :=
  match c with
  | Call e _ =>
      match e with
      | SetHardMode b => [b]
      | _ => []
      end
  end.

Definition policies (tr : list call) : list bool := flat_map policy_of tr.

(** The lines printed in a run, in order. *)
Definition printed_of (c : call) : list string :=
  match c with
  | Call e _ =>
      match e with
      | Print text => [text]
      | _ => []
      end
  end.

Definition printed (tr : list call) : list string := flat_map printed_of tr.

(** Runs with a bound on the number of steps, by recursion on the bound: the
    form in which runs of compound programs are taken apart. *)
Fixpoint runN {R : Type} (n : nat) (ot : itree' gameE R)
  (tr : list call) (o : ending R) : Prop :=
  (tr = [] /\ o = Running) \/
  match ot with
  | RetF r => tr = [] /\ o = Returned r
  | TauF t =>
      match n with
      | 0 => False
      | S n' => runN n' (observe t) tr o
      end
  | VisF e k =>
      (tr = [] /\ exists exn, fails e exn /\ o = Raised exn) \/
      match n with
      | 0 => False
      | S n' =>
          exists x tr',
            feasible e x /\ tr = Call e x :: tr' /\ runN n' (observe (k x)) tr' o
      end
  end.

(** ** The shape of the runs of [main] *)

(** One draw from the word list and the lookup of the word drawn. *)
Definition draw (words : list string) (word : string) (page : PyPage) : list call :=
  [Call (RandomChoice words) word; Call (GetPage word) page].

(** One question to the user and the lookup of the name typed. *)
Definition ask (name : string) (page : PyPage) : list call :=
  [Call (Print "What would you like your page to be?") tt;
   Call (Input "") name;
   Call (GetPage name) page].

Definition failed_ask (name : string) : list call :=
  ask name None ++
  [Call (Print ("Could not find page '" +++ name
                +++ "'. Please try another page." +++ nl)) tt].

(** The two lines shown for a page. *)
Definition shown (label : string) (p : Page) : list call :=
  [Call (Print (label +++ title p +++ nl)) tt;
   Call (Print ("Summary: " +++ slice_to 500 (summary p) +++ "..." +++ nl)) tt].

(** The score the game gives to a search result. *)
Definition score (path : PyPath) : nat :=
  if truthy_path path then len path else 100.

(** The lines of one side's result. *)
Definition reported (header : string) (path : PyPath) : list call :=
  Call (Print header) tt ::
  match path with
  | Some (x :: l) =>
      [Call (Print (join (nl +++ " -> ") (x :: l))) tt;
       Call (Print ("Length: " +++ str_of_nat (length (x :: l)) +++ nl)) tt]
  | _ =>
      [Call (Print "No path found (or search timed out).") tt;
       Call (Print ("Length: ∞ (Infinite)" +++ nl)) tt]
  end.

Definition verdict (computer_score user_score : nat) : string :=
  if Nat.ltb user_score computer_score then "I win!"
  else if Nat.ltb computer_score user_score then "You win!"
  else "It's a tie!".

(** What the environment did in one round: the words drawn and names typed
    that did not resolve, the three that did with their pages, and the
    results of the two searches. *)
Record Played : Type := mkPlayed {
  start_failed : list string;
  start_word : string;
  start_found : Page;
  computer_failed : list string;
  computer_word : string;
  computer_found : Page;
  user_failed : list string;
  user_name : string;
  user_found : Page;
  computer_result : PyPath;
  user_result : PyPath
}.

Definition round_trace (words : list string) (g : Played) : list call :=
  flat_map (fun w => draw words w None) (start_failed g) ++
  draw words (start_word g) (Some (start_found g)) ++
  shown "The starting page is: " (start_found g) ++
  flat_map (fun w => draw words w None) (computer_failed g) ++
  draw words (computer_word g) (Some (computer_found g)) ++
  shown "The computer's page is: " (computer_found g) ++
  flat_map failed_ask (user_failed g) ++
  ask (user_name g) (Some (user_found g)) ++
  shown "Your page is: " (user_found g) ++
  [Call (Print ("Calculating Bacon paths..." +++ nl)) tt] ++
  [Call (FindShortPath (Some (start_found g)) (Some (computer_found g)))
        (computer_result g)] ++
  reported "Computer's path:" (computer_result g) ++
  [Call (FindShortPath (Some (start_found g)) (Some (user_found g)))
        (user_result g)] ++
  reported "Your path:" (user_result g) ++
  [Call (Print (verdict (score (computer_result g)) (score (user_result g)))) tt].

Definition round_vars (g : Played) : Round :=
  mkRound (Some (start_found g)) (Some (computer_found g)) (Some (user_found g))
          (computer_result g) (user_result g)
          (score (computer_result g)) (score (user_result g)).

Definition words_drawn (words : list string) (g : Played) : Prop :=
  Forall (fun w => w ∈ words) (start_failed g ++ [start_word g] ++
                               computer_failed g ++ [computer_word g]).

(** The body of the third retry loop of [round] (lines 55-59). *)
Definition ask_body : game PyPage :=
  print "What would you like your page to be?";;
  user_page_name <- input "";;
  user_page <- get_page user_page_name;;
  (if truthy_page user_page then Ret tt
   else print ("Could not find page '" +++ user_page_name
               +++ "'. Please try another page." +++ nl));;
  Ret user_page.

(** Every call of every run of [t] satisfies [C], and an exception raised
    satisfies [E]. *)
Definition safe {R : Type} (t : game R)
  (C : call -> Prop) (E : string -> Prop) : Prop :=
  forall tr o, run t tr o -> Forall C tr /\ forall exn, o = Raised exn -> E exn.

(** In a round, the only calls are prints, inputs, draws, lookups and
    searches, and the only exceptions are the [IndexError] of [random.choice]
    on an empty word list and the [EOFError] of [input()]. *)
Definition round_call (c : call) : Prop :=
  match c with
  | Call e _ =>
      match e with
      | SetHardMode _ | ReadLines _ | Raise _ => False
      | _ => True
      end
  end.

Definition round_exn (words : list string) (exn : string) : Prop :=
  (exn = "IndexError" /\ words = []) \/ exn = "EOFError".




Definition welcome_trace : list call :=
  [Call (Print (nl +++ nl +++ "🥓 Welcome to WikiBacon! 🥓" +++ nl)) tt;
   Call (Print ("In this game, we start from a random Wikipedia page, and then we compete to see who can name a page that is *farthest away* from the original page." +++ nl)) tt;
   Call (Print (nl +++ "Difficulty modes:")) tt;
   Call (Print "  [1] Normal - Uses both links and categories") tt;
   Call (Print "  [2] Hard - Links only (no categories)") tt].

(** The policy [main] selects from the line typed at the mode prompt. *)
Definition hard_selected (mode : string) : bool := String.eqb (strip mode) "2".

(** Everything [main] does before it enters the game loop, when the player
    types [mode] at the first prompt and [cmd], which is not [q], at the
    second. *)
Definition prologue_trace (mode cmd : string) (words : list string) : list call :=
  welcome_trace ++
  [Call (Input "Choose mode (1 or 2, default=1): ") mode;
   Call (SetHardMode (hard_selected mode)) tt;
   Call (Print (if hard_selected mode
                then "🔥 Hard mode activated! Categories disabled." +++ nl
                else "✨ Normal mode selected." +++ nl)) tt;
   Call (Print "Ready to play? Hit Enter to start, or type 'q' to quit") tt;
   Call (Input "") cmd;
   Call (ReadLines "dictionary.txt") words].

(** Calls made before the game loop, the word list apart. *)
Definition prologue_call (c : call) : Prop :=
  match c with
  | Call e _ =>
      match e with
      | Print _ | Input _ | SetHardMode _ => True
      | _ => False
      end
  end.

(** [follows t P]: every run of [t] satisfies [P]. *)
Definition follows {R : Type} (t : game R)
  (P : list call -> ending R -> Prop) : Prop :=
  forall tr o, run t tr o -> P tr o.

(** A run of [main] either has not entered the game loop, and then made only
    console calls and at most one policy setting, and raised at most a
    failure of the console or of the word list file, or consists of the
    prologue followed by a run of the game loop. *)
Definition main_shape (tr : list call) (o : ending unit) : Prop :=
  (Forall prologue_call tr /\ length (policies tr) <= 1 /\
   forall exn, o = Raised exn -> exn = "EOFError" \/ exn ∈ file_errors) \/
  (exists mode cmd words rest,
      String.eqb cmd "q" = false /\
      tr = prologue_trace mode cmd words ++ rest /\
      run (game_loop words) rest o).

(** The pages of the successful lookups of a run, in order. *)
Definition resolved (tr : list call) : list Page :=
  flat_map (fun l => match snd l with Some p => [p] | None => [] end) (lookups tr).

(** The two lines printed for a page. *)
Definition shown_lines (label : string) (p : Page) : list string :=
  [label +++ title p +++ nl;
   "Summary: " +++ slice_to 500 (summary p) +++ "..." +++ nl].

(** The words drawn and the names typed in a run, in order. *)
Definition drawn_of (c : call) : list string :=
  match c with
  | Call e x =>
      match e in gameE X return X -> list string with
      | RandomChoice _ => fun w => [w]
      | _ => fun _ => []
      end x
  end.

Definition drawn (tr : list call) : list string := flat_map drawn_of tr.

Definition typed_of (c : call) : list string :=
  match c with
  | Call e x =>
      match e in gameE X return X -> list string with
      | Input _ => fun s => [s]
      | _ => fun _ => []
      end x
  end.

Definition typed (tr : list call) : list string := flat_map typed_of tr.


(** The question asked after a round and the line typed in answer. *)
Definition again_trace (cmd : string) : list call :=
  [Call (Print (nl +++ nl +++ "Play again? Hit Enter for another round, or type 'q' to quit")) tt;
   Call (Input "") cmd].

Definition goodbye_trace : list call :=
  [Call (Print (nl +++ "🥓 Thanks for playing! 🥓" +++ nl)) tt;
   Call (Print ("WikiBacon is not affiliated with Wikipedia or the Wikimedia Foundation. To donate to Wikipedia and support their vision of an open internet that makes games like this possible, please visit https://donate.wikimedia.org/" +++ nl)) tt].

(** The rounds of a game that the player ended: each round but the last is
    followed by a line other than [q]. *)
Definition game_trace (words : list string) (rounds : list (Played * string))
  (final : Played) : list call :=
  flat_map (fun gc => round_trace words (fst gc) ++ again_trace (snd gc)) rounds ++
  round_trace words final ++ again_trace "q" ++ goodbye_trace.

Definition pair_of_searches (g : Played) : list (PyPage * PyPage * PyPath) :=
  [(Some (start_found g), Some (computer_found g), computer_result g);
   (Some (start_found g), Some (user_found g), user_result g)].

(** ** Sample runs *)

Definition page_a : Page := mkPage "Alpha" "First letter of the Greek alphabet." ["Beta"] ["Letters"].
Definition page_b : Page := mkPage "Beta" "Second letter of the Greek alphabet." ["Gamma"] ["Letters"].
Definition page_c : Page := mkPage "Gamma" "Third letter of the Greek alphabet." [] ["Letters"].

Definition sample_words : list string := ["alpha"; "beta"].

(** The first draw does not resolve, the first name typed does not either;
    the computer's page is found in two hops, the user's is not connected. *)
Definition sample_script : list reply :=
  [RString "alpha"; RPage None;
   RString "alpha"; RPage (Some page_a);
   RString "beta"; RPage (Some page_c);
   RString "gama"; RPage None;
   RString "beta"; RPage (Some page_b);
   RPath (Some ["Alpha"; "Beta"; "Gamma"]);
   RPath None].

Definition sample_trace : list call :=
  fst (exec 100 sample_script (round sample_words)).

Definition sample_round : Round :=
  mkRound (Some page_a) (Some page_c) (Some page_b)
          (Some ["Alpha"; "Beta"; "Gamma"]) None 3 100.

(** A game started with an empty word list: the first draw raises. *)
Definition empty_list_script : list reply :=
  [RString "1"; RString ""; RLines []].

Definition empty_list_trace : list call := fst (exec 100 empty_list_script main).




(** A game of two rounds in hard mode, ended by the player. *)
Definition two_rounds_script : list reply :=
  [RString " 2"; RString ""; RLines sample_words] ++
  sample_script ++ [RString ""] ++
  sample_script ++ [RString "q"].

Definition two_rounds_trace : list call := fst (exec 400 two_rounds_script main).

(** A round played against the endless chain, with a cap of 200 expansions:
    the computer's page is 100 hops from the start page, the user's page
    cannot be reached. *)
Definition far_words : list string := ["x"; "far"].

Definition far_core : Wiki.Core := Wiki.fresh_core false 200.

Definition far_page : Page := Wiki.chain_page 100.
Definition lone_page : Page := mkPage "y" "" [] [].

Definition far_path : PyPath :=
  fst (Wiki.find_short_path Wiki.chain far_core (Wiki.chain_page 0) far_page).

Definition lone_path : PyPath :=
  fst (Wiki.find_short_path Wiki.chain far_core (Wiki.chain_page 0) lone_page).

Definition far_script : list reply :=
  [RString "x"; RPage (Some (Wiki.chain_page 0));
   RString "far"; RPage (Some far_page);
   RString "y"; RPage (Some lone_page);
   RPath far_path;
   RPath lone_path].

Definition far_trace : list call := fst (exec 100 far_script (round far_words)).

Definition far_round : Round :=
  mkRound (Some (Wiki.chain_page 0)) (Some far_page) (Some lone_page)
          far_path lone_path 101 100.

(** ** The stages of a run of [main] *)

(** The line that confirms the mode (lines 18 and 21). *)
Definition announcement (hard : bool) : string :=
  if hard then "🔥 Hard mode activated! Categories disabled." +++ nl
  else "✨ Normal mode selected." +++ nl.

(** Everything [main] does up to the answer [cmd] to its second prompt
    (lines 9-24). *)
Definition started_trace (mode cmd : string) : list call :=
  welcome_trace ++
  [Call (Input "Choose mode (1 or 2, default=1): ") mode;
   Call (SetHardMode (hard_selected mode)) tt;
   Call (Print (announcement (hard_selected mode))) tt;
   Call (Print "Ready to play? Hit Enter to start, or type 'q' to quit") tt;
   Call (Input "") cmd].

(** The files read in a run, in order: path and lines. *)
Definition read_of (c : call) : list (string * list string) :=
  match c with
  | Call e x =>
      match e in gameE X return X -> list (string * list string) with
      | ReadLines path => fun l => [(path, l)]
      | _ => fun _ => []
      end x
  end.

Definition reads (tr : list call) : list (string * list string) :=
  flat_map read_of tr.

(** The stages of a run of [main]: before the second prompt is answered,
    where only the console can fail; left at the second prompt; at the word
    list, which is still to come or could not be read; in the game loop. *)
Definition main_stage (tr : list call) (o : ending unit) : Prop :=
  ((o = Running \/ o = Raised "EOFError") /\
   Forall prologue_call tr /\ length (typed tr) <= 1 /\
   exists mode, tr `prefix_of` started_trace mode "") \/
  (exists mode, tr = started_trace mode "q" /\ (o = Returned tt \/ o = Running)) \/
  (exists mode cmd,
      String.eqb cmd "q" = false /\ tr = started_trace mode cmd /\
      (o = Running \/
       exists exn, fails (ReadLines "dictionary.txt") exn /\ o = Raised exn)) \/
  (exists mode cmd words rest,
      String.eqb cmd "q" = false /\
      tr = started_trace mode cmd ++ Call (ReadLines "dictionary.txt") words :: rest /\
      run (game_loop words) rest o).

(** The calls of the game loop over the word list [words]: prints, inputs
    without a prompt, draws from [words] that give one of its words, lookups,
    and searches between two page objects. *)
Definition loop_call (words : list string) (c : call) : Prop :=
  match c with
  | Call e x =>
      match e in gameE X return X -> Prop with
      | Print _ | GetPage _ => fun _ => True
      | Input prompt => fun _ => prompt = ""
      | RandomChoice seq => fun w => seq = words /\ w ∈ words
      | FindShortPath start target => fun _ => is_Some start /\ is_Some target
      | SetHardMode _ | ReadLines _ | Raise _ => fun _ => False
      end x
  end.

(** A game left at the second prompt. *)
Definition quit_script : list reply := [RString "1"; RString "q"].
Definition quit_run_trace : list call := fst (exec 100 quit_script main).

(** The message for a name that did not resolve (line 59). *)
Definition not_found (name : string) : string :=
  "Could not find page '" +++ name +++ "'. Please try another page." +++ nl.

(** The lines of one side's result (lines 69-75 and 80-86), with the score
    the round has given it. *)
Definition result_lines (path : PyPath) (score : nat) : list string :=
  if truthy_path path then
    [join (nl +++ " -> ") (match path with Some l => l | None => [] end);
     "Length: " +++ str_of_nat score +++ nl]
  else
    ["No path found (or search timed out).";
     "Length: ∞ (Infinite)" +++ nl].



(** The word list file does not exist. *)
Definition missing_file_script : list reply :=
  [RString "1"; RString ""; RRaise "FileNotFoundError"].

Definition missing_file_trace : list call := fst (exec 100 missing_file_script main).

(** * Facts about runs *)

(** ** Facts about strings *)

(** The helpers of the Python runtime on small inputs. *)
Example strip_mode : strip " 2 " = "2" /\ strip ("2" +++ nl) = "2" /\ strip "   " = "".
Proof. repeat split. Qed.

(** [strip] removes the whitespace characters of Unicode, such as the
    no-break space (U+00A0) and the ideographic space (U+3000). *)
Example strip_unicode :
  strip (String "194" (String "160" "") +++ "2" +++ "　") = "2" /\
  hard_selected (String "194" (String "160" "") +++ "2") = true /\
  hard_selected "é2" = false.
Proof. vm_compute. repeat split. Qed.

Example join_path : join (nl +++ " -> ") ["A"; "B"] = "A" +++ nl +++ " -> B".
Proof. reflexivity. Qed.

Example str_of_length : str_of_nat 0 = "0" /\ str_of_nat 101 = "101".
Proof. split; reflexivity. Qed.

Example code_points :
  map code_point (chars "2é　🥓") = [Some 50; Some 233; Some 12288; Some 129363]%N /\
  code_point (String "201" "") = None /\
  code_point (String "192" (String "137" "")) = None.
Proof. vm_compute. repeat split. Qed.

Example slice_short_long : slice_to 3 "abcdef" = "abc" /\ slice_to 3 "ab" = "ab".
Proof. split; reflexivity. Qed.

(** Slices count characters, not bytes. *)
Example slice_characters :
  chars "héllo 🥓" = ["h"; "é"; "l"; "l"; "o"; " "; "🥓"] /\
  str_len "héllo 🥓" = 7 /\ slice_to 2 "héllo 🥓" = "hé" /\
  slice_to 7 "héllo 🥓" = "héllo 🥓".
Proof. vm_compute. repeat split. Qed.

Lemma leading_character ch : leading ch -> character ch.
Proof. intros (c & t & -> & _ & H). exists c, t. auto. Qed.

Lemma append_String c a b : String c a +++ b = String c (a +++ b).
Proof. reflexivity. Qed.

Lemma of_chars_app a b : of_chars (a ++ b) = of_chars a +++ of_chars b.
Proof.
  induction a as [|ch a IH]; [reflexivity|].
  cbn [of_chars app]. rewrite IH.
  induction ch as [|c ch IHc]; [reflexivity|].
  rewrite !append_String, IHc. reflexivity.
Qed.

(** Joining the characters of a string gives the string back. *)
Lemma of_chars_chars s : of_chars (chars s) = s.
Proof.
  induction s as [|c s IH]; [reflexivity|]. cbn [chars].
  destruct (starts_with_continuation s) eqn:E.
  - destruct (chars s) as [|ch l].
    + cbn in IH. subst s. discriminate.
    + cbn [of_chars] in *. rewrite append_String, IH. reflexivity.
  - cbn [of_chars]. rewrite IH. reflexivity.
Qed.

Lemma chars_well_formed s : well_formed (chars s).
Proof.
  assert (G : well_formed (chars s) /\
              (starts_with_continuation s = false -> Forall leading (chars s))).
  { induction s as [|c s [IH1 IH2]]; [split; [exact I|intros _; constructor]|].
    cbn [chars]. destruct (starts_with_continuation s) eqn:E.
    - destruct (chars s) as [|ch l] eqn:Ec.
      + split; [split; [exists c, ""; split; [reflexivity|exact I]|constructor]|].
        intros Hc. constructor; [|constructor]. exists c, "". repeat split. exact Hc.
      + destruct IH1 as [(d & t & -> & Ht) Hl].
        assert (Hd : is_continuation d = true).
        { pose proof (of_chars_chars s) as Es. rewrite Ec in Es.
          cbn [of_chars] in Es. rewrite append_String in Es. subst s. exact E. }
        split.
        * split; [|exact Hl]. exists c, (String d t). split; [reflexivity|].
          split; assumption.
        * intros Hc. constructor; [|exact Hl].
          exists c, (String d t). repeat split; assumption.
    - specialize (IH2 eq_refl). split.
      + split; [exists c, ""; split; [reflexivity|exact I]|exact IH2].
      + intros Hc. constructor; [|exact IH2]. exists c, "". repeat split. exact Hc. }
  exact (proj1 G).
Qed.

Lemma chars_leading c t l :
  all_continuation t -> Forall leading l -> chars (of_chars l) = l ->
  chars (String c (t +++ of_chars l)) = String c t :: l.
Proof.
  revert c. induction t as [|d t IH]; intros c Ht Hl El.
  - change ("" +++ of_chars l) with (of_chars l). cbn [chars].
    assert (E : starts_with_continuation (of_chars l) = false).
    { destruct Hl as [|ch l (c' & t' & -> & Hc & _) _]; [reflexivity|exact Hc]. }
    rewrite E, El. reflexivity.
  - destruct Ht as [Hd Ht]. rewrite append_String.
    change (chars (String c (String d (t +++ of_chars l))))
      with (if is_continuation d
            then match chars (String d (t +++ of_chars l)) with
                 | ch :: l' => String c ch :: l'
                 | [] => [String c ""]
                 end
            else String c "" :: chars (String d (t +++ of_chars l))).
    rewrite Hd, (IH d Ht Hl El). reflexivity.
Qed.

(** Splitting a string made of characters gives the characters back. *)
Lemma chars_of_chars l : well_formed l -> chars (of_chars l) = l.
Proof.
  assert (G : forall l, Forall leading l -> chars (of_chars l) = l).
  { induction 1 as [|ch l' (c & t & -> & _ & Ht) Hl IH]; [reflexivity|].
    cbn [of_chars]. rewrite append_String. apply chars_leading; assumption. }
  destruct l as [|ch l']; [reflexivity|]. intros [(c & t & -> & Ht) Hl].
  cbn [of_chars]. rewrite append_String. apply chars_leading; auto.
Qed.

Lemma take_well_formed n l : well_formed l -> well_formed (take n l).
Proof.
  destruct l as [|ch l]; [destruct n; auto|]. destruct n as [|n]; [exact (fun _ => I)|].
  intros [Hc Hl]. split; [exact Hc|]. apply Forall_take, Hl.
Qed.

(** [s[:n]] is the whole of [s] when [s] has at most [n] characters; in
    general it is made of the first [n] characters of [s]. *)
Lemma slice_to_short n s : str_len s <= n -> slice_to n s = s.
Proof.
  unfold str_len, slice_to. intros H. rewrite take_ge by exact H.
  apply of_chars_chars.
Qed.

Lemma slice_to_prefix n s :
  chars (slice_to n s) = take n (chars s) /\
  str_len (slice_to n s) = Nat.min n (str_len s) /\
  exists rest, s = slice_to n s +++ rest.
Proof.
  unfold slice_to, str_len.
  assert (E : chars (of_chars (take n (chars s))) = take n (chars s)).
  { apply chars_of_chars, take_well_formed, chars_well_formed. }
  split; [exact E|]. split.
  - rewrite E. apply length_take.
  - exists (of_chars (drop n (chars s))).
    rewrite <- of_chars_app, take_drop, of_chars_chars. reflexivity.
Qed.

(** What [strip] removes: [s.strip()] is [x] exactly when [s] is [x] between
    two runs of whitespace characters, for a character [x] that is not
    whitespace. *)
Lemma lstrip_chars_spaces l x r :
  Forall (fun ch => is_space_char ch = true) l -> is_space_char x = false ->
  lstrip_chars (l ++ x :: r) = x :: r.
Proof.
  intros Hl Hx. induction Hl as [|ch l Hch Hl IH]; cbn [app lstrip_chars].
  - rewrite Hx. reflexivity.
  - rewrite Hch. exact IH.
Qed.

Lemma lstrip_chars_split l :
  exists sp, l = sp ++ lstrip_chars l /\ Forall (fun ch => is_space_char ch = true) sp.
Proof.
  induction l as [|ch l (sp & E & F)]; [exists []; split; [reflexivity|constructor]|].
  cbn [lstrip_chars]. destruct (is_space_char ch) eqn:Hch.
  - exists (ch :: sp). split; [cbn; congruence|constructor; assumption].
  - exists []. split; [reflexivity|constructor].
Qed.

Lemma of_chars_single l c :
  Forall character l -> of_chars l = String c "" -> l = [String c ""].
Proof.
  intros F E. destruct F as [|ch l (d & t & -> & _) F]; [discriminate|].
  cbn [of_chars] in E. rewrite append_String in E. injection E as -> E.
  destruct t; [|discriminate]. cbn in E.
  destruct F as [|ch' l' (d' & t' & -> & _) _]; [reflexivity|discriminate].
Qed.

Lemma strip_single s c :
  is_space_char (String c "") = false ->
  strip s = String c "" <->
  exists l r,
    chars s = l ++ [String c ""] ++ r /\
    Forall (fun ch => is_space_char ch = true) l /\
    Forall (fun ch => is_space_char ch = true) r.
Proof.
  intros Hc. unfold strip. split.
  - intros E.
    destruct (lstrip_chars_split (chars s)) as (sp1 & E1 & F1).
    destruct (lstrip_chars_split (rev (lstrip_chars (chars s)))) as (sp2 & E2 & F2).
    assert (Fc : Forall character (chars s)).
    { pose proof (chars_well_formed s) as W. destruct (chars s) as [|ch l]; [constructor|].
      destruct W as [Hch Hl]. constructor; [exact Hch|].
      eapply Forall_impl; [exact Hl|]. exact leading_character. }
    apply of_chars_single in E.
    + exists sp1, (rev sp2). split; [|split; [exact F1|apply Forall_rev, F2]].
      rewrite E1 at 1. f_equal.
      apply (f_equal (@rev string)) in E2. rewrite rev_involutive, rev_app_distr in E2.
      rewrite E2, E. reflexivity.
    + rewrite E1 in Fc. apply Forall_app in Fc as [_ Fc].
      apply (f_equal (@rev string)) in E2. rewrite rev_involutive, rev_app_distr in E2.
      rewrite E2 in Fc. apply Forall_app in Fc as [Fc _]. exact Fc.
  - intros (l & r & E & Fl & Fr). rewrite E.
    change ([String c ""] ++ r) with (String c "" :: r).
    rewrite (lstrip_chars_spaces l _ r Fl Hc). cbn [rev].
    change (rev r ++ [String c ""]) with (rev r ++ String c "" :: []).
    rewrite (lstrip_chars_spaces (rev r) _ [] (Forall_rev Fr) Hc). reflexivity.
Qed.

(** ** Facts about the run relation *)

Lemma runF_runN {R : Type} (ot : itree' gameE R) tr o :
  runF ot tr o -> exists n, runN n ot tr o.
Proof.
  induction 1 as [ot|r|X e h exn Hf|t0 tr o H [n IH]|X e h x tr o Hf H [n IH]].
  - exists 0. destruct ot; cbn; auto.
  - exists 0. cbn. auto.
  - exists 0. cbn. right. left. eauto.
  - exists (S n). cbn. auto.
  - exists (S n). cbn. right. right. eauto.
Qed.

Lemma runN_runF {R : Type} n : forall (ot : itree' gameE R) tr o,
  runN n ot tr o -> runF ot tr o.
Proof.
  induction n as [|n IH]; intros ot tr o H.
  - destruct ot as [r|t|X e k]; cbn in H.
    + destruct H as [[-> ->]|[-> ->]]; constructor.
    + destruct H as [[-> ->]|[]]. constructor.
    + destruct H as [[-> ->]|[(-> & exn & Hf & ->)|[]]]; constructor. exact Hf.
  - destruct ot as [r|t|X e k]; cbn in H.
    + destruct H as [[-> ->]|[-> ->]]; constructor.
    + destruct H as [[-> ->]|H]; [constructor|]. constructor. auto.
    + destruct H as [[-> ->]|[(-> & exn & Hf & ->)|(x & tr' & Hf & -> & H)]];
        [constructor| |].
      * constructor. exact Hf.
      * constructor; auto.
Qed.

Lemma observe_bind {R S : Type} (t : game R) (k : R -> game S) :
  observe (ITree.bind t k) =
  match observe t with
  | RetF r => observe (k r)
  | TauF t' => TauF (ITree.bind t' k)
  | VisF e h => VisF e (fun x => ITree.bind (h x) k)
  end.
Proof.
  change (observe (ITree.bind t k)) with
    (observe (match observe t with
              | RetF r => k r
              | TauF t' => Tau (ITree.bind t' k)
              | VisF e h => Vis e (fun x => ITree.bind (h x) k)
              end)).
  destruct (observe t); reflexivity.
Qed.

Lemma observe_iter {I R : Type} (body : I -> game (I + R)) (i : I) :
  observe (ITree.iter body i) =
  observe (ITree.bind (body i) (fun lr =>
             match lr with
             | inl l => Tau (ITree.iter body l)
             | inr r => Ret r
             end)).
Proof. reflexivity. Qed.

Lemma run_Ret_inv {R : Type} (r : R) tr o :
  run (Ret r) tr o -> tr = [] /\ (o = Returned r \/ o = Running).
Proof.
  intros H. apply runF_runN in H as [n H].
  destruct n; cbn in H; intuition.
Qed.

Lemma run_trigger_inv {X : Type} (e : gameE X) tr o :
  run (ITree.trigger e) tr o ->
  (tr = [] /\ o = Running) \/
  (tr = [] /\ exists exn, fails e exn /\ o = Raised exn) \/
  (exists x, feasible e x /\ tr = [Call e x] /\ (o = Returned x \/ o = Running)).
Proof.
  intros H. apply runF_runN in H as [n H].
  destruct n; cbn in H.
  - intuition.
  - destruct H as [H|[H|(x & tr' & Hf & -> & H)]]; auto.
    right. right. exists x.
    apply runN_runF, (run_Ret_inv x) in H as [-> H]. auto.
Qed.

Lemma run_bind_inv {R S : Type} (t : game R) (k : R -> game S) tr o :
  run (ITree.bind t k) tr o ->
  (exists tr1 r tr2,
      run t tr1 (Returned r) /\ run (k r) tr2 o /\ tr = tr1 ++ tr2) \/
  (exists o', run t tr o' /\ cut o' = Some o).
Proof.
  intros H. apply runF_runN in H as [n H]. revert t tr H.
  induction n as [|n IH]; intros t tr H; rewrite observe_bind in H; unfold run;
    destruct (observe t) as [r|t1|X e h] eqn:Ht.
  - left. exists [], r, tr. repeat split; [constructor|]. eapply runN_runF, H.
  - cbn in H. destruct H as [[-> ->]|[]].
    right. exists Running. split; [constructor|reflexivity].
  - cbn in H. destruct H as [[-> ->]|[(-> & exn & Hf & ->)|[]]].
    + right. exists Running. split; [constructor|reflexivity].
    + right. exists (Raised exn). split; [constructor; exact Hf|reflexivity].
  - left. exists [], r, tr. repeat split; [constructor|]. eapply runN_runF, H.
  - cbn in H. destruct H as [[-> ->]|H].
    + right. exists Running. split; [constructor|reflexivity].
    + apply IH in H as [(tr1 & r & tr2 & H1 & H2 & ->)|(o' & H1 & Hc)].
      * left. exists tr1, r, tr2. repeat split; [constructor|..]; assumption.
      * right. exists o'. split; [constructor|]; assumption.
  - cbn in H. destruct H as [[-> ->]|[(-> & exn & Hf & ->)|(x & tr' & Hf & -> & H)]].
    + right. exists Running. split; [constructor|reflexivity].
    + right. exists (Raised exn). split; [constructor; exact Hf|reflexivity].
    + apply IH in H as [(tr1 & r & tr2 & H1 & H2 & ->)|(o' & H1 & Hc)].
      * left. exists (Call e x :: tr1), r, tr2.
        repeat split; [constructor|..]; assumption.
      * right. exists o'. split; [constructor|]; assumption.
Qed.

Lemma run_iter_inv {I R : Type} (body : I -> game (I + R)) (i : I) tr o :
  run (ITree.iter body i) tr o -> iter_run body i tr o.
Proof.
  intros H. apply runF_runN in H as [n H].
  set (kont := fun lr : I + R =>
                 match lr with
                 | inl l => Tau (ITree.iter body l)
                 | inr r => Ret r
                 end).
  assert (G : forall (t : game (I + R)) tr,
             runN n (observe (ITree.bind t kont)) tr o ->
             (exists tr1 lr tr2,
                 run t tr1 (Returned lr) /\ tr = tr1 ++ tr2 /\
                 match lr with
                 | inl j => iter_run body j tr2 o
                 | inr r => tr2 = [] /\ o = Returned r
                 end) \/
             (exists o', run t tr o' /\ cut o' = Some o)).
  { clear i tr H. induction n as [|n IH]; intros t tr H;
      rewrite observe_bind in H; unfold run;
      destruct (observe t) as [[j|r]|t1|X e h] eqn:Ht; cbn in H.
    - destruct H as [[-> ->]|[]]. right. exists Running.
      split; [constructor|reflexivity].
    - destruct H as [[-> ->]|[-> ->]].
      + right. exists Running. split; [constructor|reflexivity].
      + left. exists [], (inr r), []. repeat split. constructor.
    - destruct H as [[-> ->]|[]]. right. exists Running.
      split; [constructor|reflexivity].
    - destruct H as [[-> ->]|[(-> & exn & Hf & ->)|[]]].
      + right. exists Running. split; [constructor|reflexivity].
      + right. exists (Raised exn). split; [constructor; exact Hf|reflexivity].
    - destruct H as [[-> ->]|H].
      + right. exists Running. split; [constructor|reflexivity].
      + rewrite observe_iter in H. apply IH in H.
        left. exists [], (inl j), tr. repeat split; [constructor|].
        destruct H as [(tr1 & lr & tr2 & H1 & -> & H2)|(o' & H1 & Hc)].
        * destruct lr as [j'|r].
          -- eapply iter_again; eassumption.
          -- destruct H2 as [-> ->]. rewrite app_nil_r. apply iter_exit, H1.
        * eapply iter_stop; eassumption.
    - destruct H as [[-> ->]|[-> ->]].
      + right. exists Running. split; [constructor|reflexivity].
      + left. exists [], (inr r), []. repeat split. constructor.
    - destruct H as [[-> ->]|H].
      + right. exists Running. split; [constructor|reflexivity].
      + apply IH in H as [(tr1 & lr & tr2 & H1 & -> & H2)|(o' & H1 & Hc)].
        * left. exists tr1, lr, tr2. repeat split; [constructor|]; assumption.
        * right. exists o'. split; [constructor|]; assumption.
    - destruct H as [[-> ->]|[(-> & exn & Hf & ->)|(x & tr' & Hf & -> & H)]].
      + right. exists Running. split; [constructor|reflexivity].
      + right. exists (Raised exn). split; [constructor; exact Hf|reflexivity].
      + apply IH in H as [(tr1 & lr & tr2 & H1 & -> & H2)|(o' & H1 & Hc)].
        * left. exists (Call e x :: tr1), lr, tr2.
          repeat split; [constructor|]; assumption.
        * right. exists o'. split; [constructor|]; assumption. }
  rewrite observe_iter in H. apply G in H.
  destruct H as [(tr1 & lr & tr2 & H1 & -> & H2)|(o' & H1 & Hc)].
  - destruct lr as [j'|r].
    + eapply iter_again; eassumption.
    + destruct H2 as [-> ->]. rewrite app_nil_r. apply iter_exit, H1.
  - eapply iter_stop; eassumption.
Qed.

Lemma answer_feasible {X : Type} (e : gameE X) script x rest :
  answer e script = Some (x, rest) -> feasible e x.
Proof.
  destruct e; cbn; try (intros; exact I).
  destruct script as [|[s| | | |] script]; try discriminate.
  destruct (decide (s ∈ seq)) as [Hin|]; [|discriminate].
  intros [= <- _]. exact Hin.
Qed.

Lemma failure_fails {X : Type} (e : gameE X) script exn :
  failure e script = Some exn -> fails e exn.
Proof.
  unfold fails, failure.
  destruct e; repeat case_match; try discriminate; intros [= <-]; try assumption.
  apply list_elem_of_singleton. reflexivity.
Qed.

(** Every scripted execution is a run. *)
Lemma exec_run {R : Type} fuel : forall script (t : game R) tr o,
  exec fuel script t = (tr, o) -> run t tr o.
Proof.
  induction fuel as [|fuel IH]; intros script t tr o H; cbn in H.
  - injection H as <- <-. constructor.
  - unfold run. destruct (observe t) as [r|t'|X e k].
    + injection H as <- <-. constructor.
    + constructor. eapply IH, H.
    + destruct (answer e script) as [[x rest]|] eqn:Ha.
      * destruct (exec fuel rest (k x)) as [tr' o'] eqn:He.
        injection H as <- <-. constructor.
        -- eapply answer_feasible, Ha.
        -- eapply IH, He.
      * destruct (failure e script) as [exn|] eqn:Hx; injection H as <- <-;
          constructor. eapply failure_fails, Hx.
Qed.

(** *** Runs that return *)

Lemma run_Ret_ret {R : Type} (r r' : R) tr :
  run (Ret r) tr (Returned r') -> tr = [] /\ r' = r.
Proof.
  intros H. apply run_Ret_inv in H as [-> [H|H]]; [|discriminate].
  injection H as ->. auto.
Qed.

Lemma run_trigger_ret {X : Type} (e : gameE X) tr x :
  run (ITree.trigger e) tr (Returned x) -> feasible e x /\ tr = [Call e x].
Proof.
  intros H.
  apply run_trigger_inv in H as [[_ H]|[(_ & exn & _ & H)|(y & Hf & -> & [H|H])]];
    try discriminate.
  injection H as ->. auto.
Qed.

Lemma run_bind_ret {R S : Type} (t : game R) (k : R -> game S) tr s :
  run (ITree.bind t k) tr (Returned s) ->
  exists tr1 r tr2,
    run t tr1 (Returned r) /\ run (k r) tr2 (Returned s) /\ tr = tr1 ++ tr2.
Proof.
  intros H. apply run_bind_inv in H as [H|(o' & _ & Hc)]; [exact H|].
  destruct o'; discriminate.
Qed.

Lemma run_raise_ret {R : Type} exn tr (r : R) :
  ~ run (raise exn) tr (Returned r).
Proof.
  intros H. apply run_bind_ret in H as (_ & v & _). destruct v.
Qed.

(** A loop [while not page] returns a page object: the trace is that of the
    failed attempts, each returning a falsy value, and of a last one that
    returned the page. *)
Lemma while_not_ret (body : game PyPage) tr page :
  run (while_not body) tr (Returned page) ->
  exists failed last p,
    page = Some p /\
    Forall (fun t => run body t (Returned None)) failed /\
    run body last (Returned (Some p)) /\
    tr = concat failed ++ last.
Proof.
  intros H. apply run_iter_inv in H.
  remember (Returned page) as o eqn:Ho.
  remember (@None Page) as i eqn:Hi.
  assert (Hgen : match i with
                 | Some p => tr = [] /\ page = Some p
                 | None =>
                     exists failed last p,
                       page = Some p /\
                       Forall (fun t => run body t (Returned None)) failed /\
                       run body last (Returned (Some p)) /\
                       tr = concat failed ++ last
                 end); [|subst i; exact Hgen].
  clear Hi. induction H as [i tr r H|i j tr1 tr2 o H1 H2 IH|i tr o' o H Hc].
  - injection Ho as ->. destruct i as [p|]; cbn in H.
    + apply run_Ret_ret in H as [-> [= ->]]. auto.
    + apply run_bind_ret in H as (? & ? & ? & _ & H & _).
      apply run_Ret_ret in H as [_ [=]].
  - specialize (IH Ho). destruct i as [p|]; cbn in H1.
    + apply run_Ret_ret in H1 as [_ [=]].
    + apply run_bind_ret in H1 as (t1 & q & t2 & Hb & H1 & ->).
      apply run_Ret_ret in H1 as [-> [= ->]]. rewrite app_nil_r.
      destruct q as [p|].
      * destruct IH as [-> ->]. exists [], t1, p.
        rewrite app_nil_r. repeat split; auto.
      * destruct IH as (failed & last & p & -> & Hf & Hl & ->).
        exists (t1 :: failed), last, p. cbn. rewrite app_assoc.
        repeat split; auto.
  - subst o. destruct o'; discriminate.
Qed.

(** *** The shape of a round *)

Ltac run_ret_step :=
  match goal with
  | H : run (ITree.bind _ _) _ (Returned _) |- _ =>
      let t1 := fresh "tr" in let t2 := fresh "tr" in
      let r := fresh "r" in let H1 := fresh "Hrun" in
      apply run_bind_ret in H as (t1 & r & t2 & H1 & H & ->)
  | H : run (ITree.trigger _) _ (Returned _) |- _ =>
      let Hf := fresh "Hfeas" in
      apply run_trigger_ret in H as [Hf ->]
  | H : run (Ret _) _ (Returned _) |- _ =>
      let E := fresh "E" in
      apply run_Ret_ret in H as [-> E]; try (injection E as E); subst
  | H : run (raise _) _ (Returned _) |- _ =>
      exfalso; exact (run_raise_ret _ _ _ H)
  end.

Ltac split_run H H1 :=
  apply run_bind_ret in H as (? & ? & ? & H1 & H & ->).

Lemma draw_once_ret words tr page :
  run (w <- random_choice words;; get_page w) tr (Returned page) ->
  exists w, w ∈ words /\ tr = draw words w page.
Proof.
  intros H. unfold random_choice, get_page in H.
  run_ret_step. destruct words as [|w0 words]; repeat run_ret_step.
  exists r. split; [|reflexivity].
  match goal with Hf : feasible (RandomChoice _) _ |- _ => exact Hf end.
Qed.

Lemma draw_loop_ret words tr page :
  run (while_not (w <- random_choice words;; get_page w)) tr (Returned page) ->
  exists failed word p,
    page = Some p /\
    Forall (fun w => w ∈ words) (failed ++ [word]) /\
    tr = flat_map (fun w => draw words w None) failed ++ draw words word (Some p).
Proof.
  intros H. apply while_not_ret in H as (failed & last & p & -> & Hf & Hl & ->).
  apply draw_once_ret in Hl as (word & Hw & ->).
  induction Hf as [|t failed Ht Hf IH].
  - exists [], word, p. repeat split. repeat constructor. exact Hw.
  - destruct IH as (names & word' & p' & [= <-] & Hin & IH).
    apply draw_once_ret in Ht as (w & Hw' & ->).
    exists (w :: names), word', p. repeat split.
    + constructor; assumption.
    + cbn [concat flat_map]. rewrite <- app_assoc, IH. reflexivity.
Qed.

Lemma ask_once_ret tr page :
  run ask_body tr (Returned page) ->
  exists name,
    tr = match page with
         | Some p => ask name (Some p)
         | None => failed_ask name
         end.
Proof.
  intros H. unfold ask_body, print, input, get_page in H.
  do 3 run_ret_step.
  match goal with q : PyPage |- _ => destruct q as [p|] end;
    cbn [truthy_page] in H; repeat run_ret_step;
    repeat match goal with u : unit |- _ => destruct u end;
    eexists; reflexivity.
Qed.

Lemma ask_loop_ret tr page :
  run (while_not ask_body) tr (Returned page) ->
  exists failed name p,
    page = Some p /\
    tr = flat_map failed_ask failed ++ ask name (Some p).
Proof.
  intros H. apply while_not_ret in H as (failed & last & p & -> & Hf & Hl & ->).
  apply ask_once_ret in Hl as (name & ->).
  induction Hf as [|t failed Ht Hf IH].
  - exists [], name, p. auto.
  - destruct IH as (names & name' & p' & [= <-] & IH).
    apply ask_once_ret in Ht as (n & ->).
    exists (n :: names), name', p. split; [reflexivity|].
    cbn [concat flat_map]. rewrite <- app_assoc, IH. reflexivity.
Qed.

Lemma show_page_ret label page tr u :
  run (show_page label page) tr (Returned u) ->
  exists p, page = Some p /\ tr = shown label p.
Proof.
  intros H. unfold show_page, getattr, print in H.
  destruct page as [p|]; repeat run_ret_step.
  exists p. split; [reflexivity|].
  repeat match goal with u : unit |- _ => destruct u end. reflexivity.
Qed.

Lemma report_ret header path tr n :
  run (report header path) tr (Returned n) ->
  n = score path /\ tr = reported header path.
Proof.
  intros H. unfold report, print in H. unfold score.
  destruct path as [[|x l]|]; cbn [truthy_path] in *; repeat run_ret_step;
    repeat match goal with u : unit |- _ => destruct u end; auto.
Qed.

(** Every round that completes has the shape [round_trace]: the three retry
    loops end with a page object each, the two searches follow, and the local
    variables are those of [round_vars]. *)
Lemma round_ret words tr rd :
  run (round words) tr (Returned rd) ->
  exists g, words_drawn words g /\ tr = round_trace words g /\ rd = round_vars g.
Proof.
  intros H. unfold round in H. fold ask_body in H.
  split_run H H1. apply draw_loop_ret in H1 as (fs & ws & s & -> & Hs & ->).
  split_run H H1. apply show_page_ret in H1 as (? & [= <-] & ->).
  split_run H H1. apply draw_loop_ret in H1 as (fc & wc & c & -> & Hc & ->).
  split_run H H1. apply show_page_ret in H1 as (? & [= <-] & ->).
  split_run H H1. apply ask_loop_ret in H1 as (fu & nu & u & -> & ->).
  split_run H H1. apply show_page_ret in H1 as (? & [= <-] & ->).
  unfold find_short_path, print in H.
  split_run H H1. apply run_trigger_ret in H1 as [_ ->].
  split_run H H1. apply run_trigger_ret in H1 as [_ ->].
  split_run H H1. apply report_ret in H1 as [-> ->].
  split_run H H1. apply run_trigger_ret in H1 as [_ ->].
  split_run H H1. apply report_ret in H1 as [-> ->].
  split_run H H1.
  match type of H1 with
  | run _ ?t _ =>
      match goal with
      | cp : PyPath, up : PyPath |- _ =>
          assert (Hv : t = [Call (Print (verdict (score cp) (score up))) tt]);
          [unfold verdict;
           destruct (Nat.ltb (score up) (score cp));
           [|destruct (Nat.ltb (score cp) (score up))];
           apply run_trigger_ret in H1 as [_ ->];
           repeat match goal with v : unit |- _ => destruct v end; reflexivity
          |rewrite Hv; clear Hv H1;
           apply run_Ret_ret in H as [-> ->];
           exists (mkPlayed fs ws s fc wc c fu nu u cp up)]
      end
  end.
  split; [|split].
  - unfold words_drawn. cbn [start_failed start_word computer_failed computer_word].
    rewrite app_assoc. apply Forall_app. split; [exact Hs|exact Hc].
  - unfold round_trace. cbn [start_failed start_word start_found computer_failed
      computer_word computer_found user_failed user_name user_found
      computer_result user_result].
    repeat match goal with v : unit |- _ => destruct v end.
    rewrite <- !app_assoc. reflexivity.
  - reflexivity.
Qed.

(** *** Properties of every run, returning or not *)

(** The exceptions of a call, case by case. *)
Ltac fail_cases H :=
  unfold fails in H; cbn [failures] in H; unfold file_errors in H;
  repeat (apply elem_of_cons in H as [->|H]);
  try (apply elem_of_nil in H; destruct H).

Ltac no_failure :=
  let Hf := fresh "Hf" in
  intros ? Hf; fail_cases Hf; try solve [right; reflexivity].

Lemma safe_Ret {R : Type} (r : R) C E : safe (Ret r) C E.
Proof.
  intros tr o H. apply run_Ret_inv in H as [-> [->| ->]]; split;
    auto; discriminate.
Qed.

Lemma safe_trigger {X : Type} (e : gameE X) (C : call -> Prop) (E : string -> Prop) :
  (forall x, feasible e x -> C (Call e x)) ->
  (forall exn, fails e exn -> E exn) ->
  safe (ITree.trigger e) C E.
Proof.
  intros HC HE tr o H.
  apply run_trigger_inv in H as [[-> ->]|[(-> & exn & Hx & ->)|(x & Hf & -> & [->| ->])]].
  - split; [constructor|discriminate].
  - split; [constructor|]. intros ? [= <-]. exact (HE _ Hx).
  - split; [auto|discriminate].
  - split; [auto|discriminate].
Qed.

Lemma safe_bind {R S : Type} (t : game R) (k : R -> game S) C E :
  safe t C E ->
  (forall tr r, run t tr (Returned r) -> safe (k r) C E) ->
  safe (ITree.bind t k) C E.
Proof.
  intros Ht Hk tr o H.
  apply run_bind_inv in H as [(tr1 & r & tr2 & H1 & H2 & ->)|(o' & H1 & Hc)].
  - destruct (Ht _ _ H1) as [F1 _]. destruct (Hk _ _ H1 _ _ H2) as [F2 HE].
    split; [apply Forall_app; auto|exact HE].
  - destruct (Ht _ _ H1) as [F1 HE]. split; [exact F1|].
    intros exn ->. destruct o'; try discriminate.
    injection Hc as <-. apply HE. reflexivity.
Qed.

Lemma safe_iter {I R : Type} (body : I -> game (I + R)) C E :
  (forall i, safe (body i) C E) ->
  forall i, safe (ITree.iter body i) C E.
Proof.
  intros Hb i tr o H. apply run_iter_inv in H.
  induction H as [i tr r H|i j tr1 tr2 o H1 H2 IH|i tr o' o H Hc].
  - destruct (Hb _ _ _ H) as [F _]. split; [exact F|discriminate].
  - destruct (Hb _ _ _ H1) as [F1 _]. destruct IH as [F2 HE].
    split; [apply Forall_app; auto|exact HE].
  - destruct (Hb _ _ _ H) as [F HE]. split; [exact F|].
    intros exn ->. destruct o'; try discriminate.
    injection Hc as <-. apply HE. reflexivity.
Qed.

Lemma safe_raise {R : Type} exn (C : call -> Prop) (E : string -> Prop) :
  E exn -> safe (@raise R exn) C E.
Proof.
  intros HE. unfold raise. apply safe_bind.
  - apply safe_trigger; [intros []|].
    intros ? Hf. fail_cases Hf. exact HE.
  - intros _ [].
Qed.

Lemma flat_map_nil {A B : Type} (f : A -> list B) (l : list A) :
  Forall (fun a => f a = []) l -> flat_map f l = [].
Proof.
  induction 1 as [|a l Ha _ IH]; cbn; [reflexivity|]. rewrite Ha, IH. reflexivity.
Qed.

Ltac safe_steps :=
  repeat first
    [ apply safe_Ret
    | apply safe_trigger; [intros; exact I|no_failure]
    | apply safe_bind; [|intros ? ? ?] ].

Lemma draw_loop_safe words :
  safe (while_not (w <- random_choice words;; get_page w))
       round_call (round_exn words).
Proof.
  apply safe_iter. intros [p|]; cbn [truthy_page]; [apply safe_Ret|].
  unfold random_choice, get_page. apply safe_bind; [|intros; apply safe_Ret].
  apply safe_bind.
  - destruct words; [apply safe_raise; left; split; reflexivity|].
    apply safe_trigger; [intros; exact I|no_failure].
  - intros. apply safe_trigger; [intros; exact I|no_failure].
Qed.

Lemma ask_loop_safe words : safe (while_not ask_body) round_call (round_exn words).
Proof.
  apply safe_iter. intros [p|]; cbn [truthy_page]; [apply safe_Ret|].
  unfold ask_body, print, input, get_page. safe_steps.
  match goal with |- safe (if truthy_page ?q then _ else _) _ _ => destruct q end;
    cbn [truthy_page]; safe_steps.
Qed.

Lemma show_page_safe words label p :
  safe (show_page label (Some p)) round_call (round_exn words).
Proof. unfold show_page, getattr, print. safe_steps. Qed.

Lemma report_safe words header path :
  safe (report header path) round_call (round_exn words).
Proof.
  unfold report, print. apply safe_bind; [safe_steps|intros _ _ _].
  destruct (truthy_path path); safe_steps.
Qed.

Lemma round_safe words : safe (round words) round_call (round_exn words).
Proof.
  unfold round. fold ask_body.
  apply safe_bind; [apply draw_loop_safe|intros ? ? H].
  apply draw_loop_ret in H as (? & ? & s & -> & _).
  apply safe_bind; [apply show_page_safe|intros _ _ _].
  apply safe_bind; [apply draw_loop_safe|intros ? ? H].
  apply draw_loop_ret in H as (? & ? & c & -> & _).
  apply safe_bind; [apply show_page_safe|intros _ _ _].
  apply safe_bind; [apply ask_loop_safe|intros ? ? H].
  apply ask_loop_ret in H as (? & ? & u & -> & _).
  apply safe_bind; [apply show_page_safe|intros _ _ _].
  unfold find_short_path, print.
  apply safe_bind; [safe_steps|intros _ _ _].
  apply safe_bind; [safe_steps|intros _ ? _].
  apply safe_bind; [apply report_safe|intros _ ? _].
  apply safe_bind; [safe_steps|intros _ ? _].
  apply safe_bind; [apply report_safe|intros _ ? _].
  apply safe_bind; [|intros; apply safe_Ret].
  repeat match goal with |- safe (if ?b then _ else _) _ _ => destruct b end;
    safe_steps.
Qed.

Lemma game_loop_safe words : safe (game_loop words) round_call (round_exn words).
Proof.
  unfold game_loop. apply safe_iter. intros _.
  apply safe_bind; [apply round_safe|intros _ _ _].
  unfold goodbye, print, input.
  apply safe_bind; [safe_steps|intros _ _ _].
  apply safe_bind; [safe_steps|intros _ cmd _].
  destruct (String.eqb cmd "q"); safe_steps.
Qed.

(** *** The runs of [main] *)

Lemma run_bind_trigger_inv {X S : Type} (e : gameE X) (k : X -> game S) tr o :
  run (ITree.bind (ITree.trigger e) k) tr o ->
  (tr = [] /\ o = Running) \/
  (tr = [] /\ exists exn, fails e exn /\ o = Raised exn) \/
  (exists x tr', feasible e x /\ tr = Call e x :: tr' /\ run (k x) tr' o).
Proof.
  intros H.
  apply run_bind_inv in H as [(tr1 & r & tr2 & H1 & H2 & ->)|(o' & H1 & Hc)].
  - apply run_trigger_ret in H1 as [Hf ->]. right. right. eauto.
  - apply run_trigger_inv in H1
      as [[-> ->]|[(-> & exn & Hx & ->)|(x & Hf & -> & [->| ->])]].
    + injection Hc as <-. auto.
    + injection Hc as <-. right. left. eauto.
    + discriminate.
    + injection Hc as <-. right. right. exists x, []. repeat split; auto.
      constructor.
Qed.

Lemma welcome_ret tr u : run welcome tr (Returned u) -> tr = welcome_trace.
Proof.
  intros H. unfold welcome, print in H. repeat run_ret_step.
  repeat match goal with v : unit |- _ => destruct v end. reflexivity.
Qed.

Lemma welcome_safe :
  safe welcome (fun c => prologue_call c /\ policy_of c = []) (fun _ => False).
Proof.
  unfold welcome, print.
  repeat first
    [ apply safe_trigger; [intros; split; [exact I|reflexivity]|no_failure]
    | apply safe_bind; [|intros ? ? ?] ].
Qed.

Lemma follows_Ret {R : Type} (r : R) (P : list call -> ending R -> Prop) :
  P [] Running -> P [] (Returned r) -> follows (Ret r) P.
Proof.
  intros H1 H2 tr o H. apply run_Ret_inv in H as [-> [->| ->]]; assumption.
Qed.

Lemma follows_trigger {X : Type} (e : gameE X) (P : list call -> ending X -> Prop) :
  P [] Running ->
  (forall exn, fails e exn -> P [] (Raised exn)) ->
  (forall x, feasible e x -> P [Call e x] Running /\ P [Call e x] (Returned x)) ->
  follows (ITree.trigger e) P.
Proof.
  intros H0 Hr Hx tr o H.
  apply run_trigger_inv in H as [[-> ->]|[(-> & exn & Hf & ->)|(x & Hf & -> & [->| ->])]].
  - exact H0.
  - exact (Hr _ Hf).
  - apply Hx, Hf.
  - apply Hx, Hf.
Qed.

Lemma follows_bind {R S : Type} (t : game R) (k : R -> game S)
  (P : list call -> ending S -> Prop) :
  follows t (fun tr1 o1 =>
    match o1 with
    | Returned r => follows (k r) (fun tr2 o => P (tr1 ++ tr2) o)
    | Raised exn => P tr1 (Raised exn)
    | Running => P tr1 Running
    end) ->
  follows (ITree.bind t k) P.
Proof.
  intros Ht tr o H.
  apply run_bind_inv in H as [(tr1 & r & tr2 & H1 & H2 & ->)|(o' & H1 & Hc)].
  - exact (Ht _ _ H1 _ _ H2).
  - specialize (Ht _ _ H1). destruct o'; try discriminate;
      injection Hc as <-; exact Ht.
Qed.

Lemma follows_bind_trigger {X S : Type} (e : gameE X) (k : X -> game S)
  (P : list call -> ending S -> Prop) :
  P [] Running ->
  (forall exn, fails e exn -> P [] (Raised exn)) ->
  (forall x, feasible e x -> follows (k x) (fun tr o => P (Call e x :: tr) o)) ->
  follows (ITree.bind (ITree.trigger e) k) P.
Proof.
  intros H0 Hr Hk. apply follows_bind, follows_trigger.
  - exact H0.
  - exact Hr.
  - intros x Hf. split.
    + apply (Hk x Hf). constructor.
    + exact (Hk x Hf).
Qed.

Ltac before_loop :=
  cbn [app]; left; split; [repeat constructor|split; [cbn; lia|]];
  first [ discriminate
        | intros ? [= <-]; first [left; reflexivity|right; repeat constructor] ].

Ltac follow :=
  lazymatch goal with
  | |- forall exn, fails _ exn -> _ =>
      let Hf := fresh "Hf" in intros ? Hf; fail_cases Hf
  | |- follows (ITree.bind (ITree.trigger _) _) _ =>
      apply follows_bind_trigger; [| |intros ? _]
  | |- follows (ITree.bind _ _) _ => apply follows_bind
  | |- follows (ITree.trigger _) _ =>
      apply follows_trigger; [| |intros ? _; split]
  | |- follows (Ret _) _ => apply follows_Ret
  | |- follows (if ?b then _ else _) _ =>
      let E := fresh "E" in destruct b eqn:E
  | |- follows (game_loop _) _ => fail
  | |- _ => before_loop
  end; cbn beta iota.

Lemma main_run tr o : run main tr o -> main_shape tr o.
Proof.
  revert tr o. change (follows main main_shape).
  unfold main, welcome, print, input, set_hard_mode, main_shape.
  repeat follow.
  all: intros tr o H; right; cbn [app].
  all: match goal with
       | Hm : String.eqb (strip ?mode) _ = _, Hc : String.eqb ?cmd "q" = false,
         H : run (game_loop ?ws) _ _ |- _ =>
           exists mode, cmd, ws, tr; split; [exact Hc|split; [|exact H]];
           unfold prologue_trace, welcome_trace, hard_selected; rewrite Hm;
           repeat match goal with v : unit |- _ => destruct v end; reflexivity
       end.
Qed.

(** *** What the trace of a round shows *)

Lemma flat_map_flat_map_nil {A B C : Type} (f : B -> list C) (g : A -> list B) l :
  (forall a, flat_map f (g a) = []) -> flat_map f (flat_map g l) = [].
Proof.
  intros H. induction l as [|a l IH]; cbn; [reflexivity|].
  rewrite flat_map_app, H, IH. reflexivity.
Qed.

Lemma flat_map_flat_map_one {A B C : Type} (f : B -> list C) (g : A -> list B)
  (h : A -> C) l :
  (forall a, flat_map f (g a) = [h a]) -> flat_map f (flat_map g l) = map h l.
Proof.
  intros H. induction l as [|a l IH]; cbn; [reflexivity|].
  rewrite flat_map_app, H, IH. reflexivity.
Qed.

Lemma reported_quiet header path :
  searches (reported header path) = [] /\ lookups (reported header path) = [] /\
  policies (reported header path) = [].
Proof. destruct path as [[|x l]|]; repeat split. Qed.

Lemma round_trace_searches words g :
  searches (round_trace words g) =
  [(Some (start_found g), Some (computer_found g), computer_result g);
   (Some (start_found g), Some (user_found g), user_result g)].
Proof.
  unfold round_trace, searches. rewrite !flat_map_app.
  rewrite !(flat_map_flat_map_nil search_of) by reflexivity.
  fold (searches (reported "Computer's path:" (computer_result g))).
  fold (searches (reported "Your path:" (user_result g))).
  rewrite !(proj1 (reported_quiet _ _)). reflexivity.
Qed.

Lemma round_trace_lookups words g :
  lookups (round_trace words g) =
  map (fun w => (w, None)) (start_failed g) ++
  [(start_word g, Some (start_found g))] ++
  map (fun w => (w, None)) (computer_failed g) ++
  [(computer_word g, Some (computer_found g))] ++
  map (fun w => (w, None)) (user_failed g) ++
  [(user_name g, Some (user_found g))].
Proof.
  unfold round_trace, lookups. rewrite !flat_map_app.
  rewrite !(flat_map_flat_map_one lookup_of _ (fun w => (w, None))) by reflexivity.
  fold (lookups (reported "Computer's path:" (computer_result g))).
  fold (lookups (reported "Your path:" (user_result g))).
  rewrite !(proj1 (proj2 (reported_quiet _ _))). reflexivity.
Qed.

Lemma round_trace_resolved words g :
  resolved (round_trace words g) = [start_found g; computer_found g; user_found g].
Proof.
  unfold resolved. rewrite round_trace_lookups, !flat_map_app.
  assert (Hnil : forall l : list string,
             flat_map (fun l => match snd l with Some p => [p] | None => [] end)
                      (map (fun w => (w, @None Page)) l) = []).
  { induction l as [|w l IH]; [reflexivity|exact IH]. }
  rewrite !Hnil. reflexivity.
Qed.

Lemma round_trace_printed words g :
  printed (round_trace words g) =
  shown_lines "The starting page is: " (start_found g) ++
  shown_lines "The computer's page is: " (computer_found g) ++
  printed (flat_map failed_ask (user_failed g)) ++
  ["What would you like your page to be?"] ++
  shown_lines "Your page is: " (user_found g) ++
  ["Calculating Bacon paths..." +++ nl] ++
  printed (reported "Computer's path:" (computer_result g)) ++
  printed (reported "Your path:" (user_result g)) ++
  [verdict (score (computer_result g)) (score (user_result g))].
Proof.
  unfold round_trace, printed. rewrite !flat_map_app.
  rewrite !(flat_map_flat_map_nil printed_of (fun w => draw words w None))
    by reflexivity.
  reflexivity.
Qed.

Lemma sample_run : run (round sample_words) sample_trace (Returned sample_round).
Proof. apply (exec_run 100 sample_script). vm_compute. reflexivity. Defined.

Lemma empty_list_run : run main empty_list_trace (Raised "IndexError").
Proof. apply (exec_run 100 empty_list_script). vm_compute. reflexivity. Defined.



Lemma round_trace_typed words g :
  typed (round_trace words g) = user_failed g ++ [user_name g].
Proof.
  unfold round_trace, typed. rewrite !flat_map_app.
  rewrite !(flat_map_flat_map_nil typed_of (fun w => draw words w None))
    by reflexivity.
  rewrite (flat_map_flat_map_one typed_of failed_ask (fun w => w)) by reflexivity.
  rewrite map_id.
  assert (Hr : forall h p, flat_map typed_of (reported h p) = []).
  { intros h [[|x l]|]; reflexivity. }
  rewrite !Hr. cbn. rewrite ?app_nil_r. reflexivity.
Qed.

Lemma round_call_policy c : round_call c -> policy_of c = [].
Proof. destruct c as [X e x]. destruct e; cbn; intros []; reflexivity. Qed.

Lemma prologue_call_search c : prologue_call c -> search_of c = [].
Proof. destruct c as [X e x]. destruct e; cbn; intros []; reflexivity. Qed.

Lemma two_rounds_run : run main two_rounds_trace (Returned tt).
Proof. apply (exec_run 400 two_rounds_script). vm_compute. reflexivity. Defined.

(** *** Complete games *)

Lemma iteration_ret words tr (r : unit + unit) :
  run (round words;;
       print (nl +++ nl +++ "Play again? Hit Enter for another round, or type 'q' to quit");;
       cmd <- input "";;
       if String.eqb cmd "q" then (goodbye;; Ret (inr tt))
       else Ret (inl tt)) tr (Returned r) ->
  exists g cmd,
    words_drawn words g /\
    match r with
    | inl _ => String.eqb cmd "q" = false /\
               tr = round_trace words g ++ again_trace cmd
    | inr _ => tr = round_trace words g ++ again_trace "q" ++ goodbye_trace
    end.
Proof.
  intros H. split_run H H1. apply round_ret in H1 as (g & Hw & -> & _).
  unfold print, input in H.
  split_run H H1. apply run_trigger_ret in H1 as [_ ->].
  split_run H H1. apply run_trigger_ret in H1 as [_ ->].
  match goal with cmd : string |- _ => exists g, cmd; destruct (String.eqb cmd "q") eqn:E end.
  - unfold goodbye, print in H. repeat run_ret_step.
    apply String.eqb_eq in E as ->.
    repeat match goal with v : unit |- _ => destruct v end.
    split; [exact Hw|reflexivity].
  - repeat run_ret_step.
    repeat match goal with v : unit |- _ => destruct v end.
    split; [exact Hw|]. split; [reflexivity|]. rewrite app_nil_r. reflexivity.
Qed.

Lemma game_loop_ret words tr u :
  run (game_loop words) tr (Returned u) ->
  exists rounds final,
    Forall (fun gc => words_drawn words (fst gc) /\ String.eqb (snd gc) "q" = false)
           rounds /\
    words_drawn words final /\
    tr = game_trace words rounds final.
Proof.
  intros H. apply run_iter_inv in H.
  remember (Returned u) as o eqn:Ho.
  induction H as [i tr r H|i j tr1 tr2 o H1 H2 IH|i tr o' o H Hc].
  - apply iteration_ret in H as (g & cmd & Hw & ->).
    exists [], g. repeat split; [constructor|exact Hw].
  - apply iteration_ret in H1 as (g & cmd & Hw & Hq & ->).
    destruct (IH Ho) as (rounds & final & Hr & Hf & ->).
    exists ((g, cmd) :: rounds), final. split; [constructor; auto|].
    split; [exact Hf|]. unfold game_trace. cbn [flat_map fst snd].
    rewrite <- !app_assoc. reflexivity.
  - subst o. destruct o'; discriminate.
Qed.

Lemma game_trace_searches words rounds final :
  searches (game_trace words rounds final) =
  flat_map pair_of_searches (map fst rounds ++ [final]).
Proof.
  unfold game_trace, searches. rewrite !flat_map_app.
  fold (searches (round_trace words final)). rewrite round_trace_searches.
  cbn [flat_map app]. rewrite app_nil_r. f_equal.
  induction rounds as [|[g cmd] rounds IH]; [reflexivity|].
  cbn [flat_map map fst snd]. rewrite !flat_map_app, IH.
  fold (searches (round_trace words g)). rewrite round_trace_searches.
  reflexivity.
Qed.

(** A game that the player ended: either it was left at the second prompt,
    before any round, or it is the prologue followed by complete rounds. *)
Lemma main_ret tr u :
  run main tr (Returned u) ->
  (Forall prologue_call tr /\ length (policies tr) <= 1) \/
  exists mode cmd words rounds final,
    tr = prologue_trace mode cmd words ++ game_trace words rounds final.
Proof.
  intros H. apply main_run in H as [(F & L & _)|(m & c & ws & rest & _ & -> & H)].
  - left. auto.
  - right. apply game_loop_ret in H as (rounds & final & _ & _ & ->).
    exists m, c, ws, rounds, final. reflexivity.
Qed.

(** In a game that the player ended, the searches are those of its rounds,
    two for each: from the start page of the round to the computer's page,
    then to the user's page. *)
Lemma game_searches tr u :
  run main tr (Returned u) ->
  exists rounds : list Played, searches tr = flat_map pair_of_searches rounds.
Proof.
  intros H. apply main_ret in H as [[F _]|(m & c & ws & rounds & final & ->)].
  - exists []. apply flat_map_nil.
    eapply Forall_impl; [exact F|]. exact prologue_call_search.
  - exists (map fst rounds ++ [final]). unfold searches at 1.
    rewrite flat_map_app. fold (searches (game_trace ws rounds final)).
    rewrite game_trace_searches. reflexivity.
Qed.

(** *** Exceptions *)

(** A program that raises makes no call. *)
Lemma run_raise_inv {R : Type} exn tr (o : ending R) :
  run (raise exn) tr o -> tr = [] /\ (o = Raised exn \/ o = Running).
Proof.
  intros H. unfold raise in H.
  apply run_bind_trigger_inv in H as [[-> ->]|[(-> & exn' & Hf & ->)|(v & _)]];
    auto.
  - fail_cases Hf. auto.
  - destruct v.
Qed.

(** With an empty word list the first draw raises: the loop makes no call
    and does not return. *)
Lemma draw_loop_empty tr o :
  run (while_not (w <- random_choice [];; get_page w)) tr o ->
  tr = [] /\ (o = Raised "IndexError" \/ o = Running).
Proof.
  intros H. apply run_iter_inv in H.
  assert (Hbody : forall t o',
             run (p <- (w <- random_choice [];; get_page w);; Ret (inl p : PyPage + PyPage))
                 t o' ->
             t = [] /\ (o' = Raised "IndexError" \/ o' = Running)).
  { intros t o' Hb.
    apply run_bind_inv in Hb as [(t1 & p & t2 & Hb & _)|(o1 & Hb & Hc)].
    - apply run_bind_ret in Hb as (? & w & ? & Hb & _).
      exfalso. exact (run_raise_ret _ _ _ Hb).
    - apply run_bind_inv in Hb as [(t1 & w & t2 & Hb & _)|(o2 & Hb & Hc')].
      + exfalso. exact (run_raise_ret _ _ _ Hb).
      + apply run_raise_inv in Hb as [-> [->| ->]];
          injection Hc' as <-; injection Hc as <-; auto. }
  remember (@None Page) as i eqn:Hi.
  destruct H as [i tr r H|i j tr1 tr2 o H1 H2|i tr o' o H Hc]; subst i;
    cbn [truthy_page] in *.
  - apply Hbody in H as [_ [H|H]]; discriminate.
  - apply Hbody in H1 as [_ [H|H]]; discriminate.
  - apply Hbody in H as [-> [->| ->]]; injection Hc as <-; auto.
Qed.

(** A round over an empty word list makes no call and does not return. *)
Lemma round_empty tr o :
  run (round []) tr o -> tr = [] /\ (o = Raised "IndexError" \/ o = Running).
Proof.
  intros H. unfold round in H.
  apply run_bind_inv in H as [(t1 & p & t2 & H & _)|(o' & H & Hc)].
  - apply draw_loop_empty in H as [_ [H|H]]; discriminate.
  - apply draw_loop_empty in H as [-> [->| ->]]; injection Hc as <-; auto.
Qed.










(** The game loop raises only at its very first draw, from an empty word
    list, before any call, or at an [input()]. *)
Lemma game_loop_raises words tr exn :
  run (game_loop words) tr (Raised exn) ->
  (exn = "IndexError" /\ words = [] /\ tr = []) \/ exn = "EOFError".
Proof.
  intros H. destruct (game_loop_safe _ _ _ H) as [_ HE].
  destruct (HE exn eq_refl) as [[-> ->]| ->]; [left|right; reflexivity].
  split; [reflexivity|]. split; [reflexivity|].
  apply run_iter_inv in H.
  assert (Hbody : forall (k : Round -> game (unit + unit)) t o',
             run (ITree.bind (round []) k) t o' ->
             t = [] /\ (o' = Raised "IndexError" \/ o' = Running)).
  { intros k t o' Hb.
    apply run_bind_inv in Hb as [(t1 & rd & t2 & Hb & _)|(o1 & Hb & Hc)].
    - apply round_empty in Hb as [_ [Hb|Hb]]; discriminate.
    - apply round_empty in Hb as [-> [->| ->]]; injection Hc as <-; auto. }
  remember (Raised "IndexError") as o eqn:Ho.
  destruct H as [i tr r H|i j tr1 tr2 o H1 H2|i tr o' o H Hc].
  - discriminate.
  - apply Hbody in H1 as [_ [H|H]]; discriminate.
  - apply Hbody in H as [-> _]. reflexivity.
Qed.


Lemma missing_file_run : run main missing_file_trace (Raised "FileNotFoundError").
Proof. apply (exec_run 100 missing_file_script). vm_compute. reflexivity. Defined.

(** ** Facts about the search *)

(** The scenario of the specification: from [A] to [D] the search returns the
    three titles [A], [B], [D], under either policy. *)
Example diamond_path :
  fst (Wiki.find_short_path Wiki.diamond (Wiki.fresh_core false 10)
         Wiki.diamond_a Wiki.diamond_d) = Some ["A"; "B"; "D"] /\
  fst (Wiki.find_short_path Wiki.diamond (Wiki.fresh_core true 10)
         Wiki.diamond_a Wiki.diamond_d) = Some ["A"; "B"; "D"].
Proof. split; vm_compute; reflexivity. Qed.

Module WikiFacts.
Import Wiki.

Section Graph.

Variable g : string -> list string.
Variable s : string.

Local Abbreviation hops := (Wiki.hops g s).

Lemma walk_0_inv v : walk g s 0 v -> v = s.
Proof. inversion 1. reflexivity. Qed.

Lemma walk_S_inv n v : walk g s (S n) v -> exists u, walk g s n u /\ v ∈ g u.
Proof. inversion 1; subst. eauto. Qed.

Lemma dist_unique v n m : dist g s v n -> dist g s v m -> n = m.
Proof. intros [W1 M1] [W2 M2]. apply Nat.le_antisymm; auto. Qed.

Lemma dist_start : dist g s s 0.
Proof. split; [constructor|intros; lia]. Qed.

Lemma route_walk l v : route g s l v -> exists n, length l = S n /\ walk g s n v.
Proof.
  induction 1 as [|l u v _ (n & L & W) Hv].
  - exists 0. split; [reflexivity|constructor].
  - exists (S n). split.
    + rewrite length_app, L. cbn. lia.
    + econstructor; eassumption.
Qed.

Lemma hops_walk k v : v ∈ hops k <-> walk g s k v.
Proof.
  revert v. induction k as [|k IH]; intros v; cbn.
  - rewrite list_elem_of_singleton. split.
    + intros ->. constructor.
    + apply walk_0_inv.
  - rewrite list_elem_of_In, in_flat_map. split.
    + intros (u & Hu & Hv). apply list_elem_of_In, IH in Hu.
      econstructor; [eassumption|]. apply list_elem_of_In, Hv.
    + intros (u & Hu & Hv)%walk_S_inv. exists u.
      rewrite <- !list_elem_of_In. split; [apply IH, Hu|exact Hv].
Qed.

Lemma reference_levels_spec target rounds : forall k d,
  reference_levels g target (hops k) k rounds = Some d <->
  (k <= d <= k + rounds /\ walk g s d target /\
   forall j, k <= j < d -> ~ walk g s j target).
Proof.
  induction rounds as [|r IH]; intros k d; cbn [reference_levels].
  - destruct (decide (target ∈ hops k)) as [Hin|Hout].
    + split.
      * intros [= <-]. repeat split; try lia. apply hops_walk, Hin.
      * intros (Hk & W & Hmin). f_equal.
        destruct (decide (k = d)) as [|Hne]; [assumption|].
        exfalso. apply (Hmin k); [lia|]. apply hops_walk, Hin.
    + split; [discriminate|]. intros (Hk & W & _).
      replace d with k in W by lia. exfalso. apply Hout, hops_walk, W.
  - destruct (decide (target ∈ hops k)) as [Hin|Hout].
    + split.
      * intros [= <-]. repeat split; try lia. apply hops_walk, Hin.
      * intros (Hk & W & Hmin). f_equal.
        destruct (decide (k = d)) as [|Hne]; [assumption|].
        exfalso. apply (Hmin k); [lia|]. apply hops_walk, Hin.
    + change (flat_map g (hops k)) with (hops (S k)). rewrite IH. split.
      * intros (Hk & W & Hmin). repeat split; try lia; [exact W|].
        intros j Hj. destruct (decide (j = k)) as [->|Hne].
        -- intros W'. apply Hout, hops_walk, W'.
        -- apply Hmin. lia.
      * intros (Hk & W & Hmin).
        assert (k <> d) by (intros ->; apply Hout, hops_walk, W).
        repeat split; try lia; [exact W|]. intros j Hj. apply Hmin. lia.
Qed.

Lemma reference_bfs_spec target rounds d :
  reference_bfs g s target rounds = Some d <-> (d <= rounds /\ dist g s target d).
Proof.
  unfold reference_bfs. change [s] with (hops 0). rewrite reference_levels_spec.
  unfold dist. split.
  - intros (Hd & W & Hmin). repeat split; [lia|exact W|].
    intros m Wm. destruct (le_lt_dec d m) as [|Hlt]; [assumption|].
    exfalso. apply (Hmin m); [lia|exact Wm].
  - intros (Hd & W & Hmin). repeat split; try lia; [exact W|].
    intros j Hj Wj. apply Hmin in Wj. lia.
Qed.

End Graph.

Section Search.

Variable source : PageSource.
Variable hard : bool.
Variable s t : string.

Local Abbreviation g := (edges source hard).
Local Abbreviation near := (Wiki.near g s).

(** The invariant of the search, at depth [d]: every visited title is at
    its distance from the start, at most [d + 1]; every title within [d]
    hops is visited; the titles already expanded have all their edges
    visited; the frontiers hold the visited titles at distance [d] still to
    expand and those at distance [d + 1]; the predecessor of a title is one
    hop closer to the start. *)
Record Inv (d : nat) (frontier next : list string)
  (vis : gset string) (pred : gmap string string) : Prop := mkInv {
  inv_start : s ∈ vis;
  inv_dist : forall v, v ∈ vis -> exists n, dist g s v n /\ n <= S d;
  inv_near : forall v n, walk g s n v -> n <= d -> v ∈ vis;
  inv_closed : forall u n, u ∈ vis -> dist g s u n ->
    n < d \/ (n = d /\ u ∉ frontier) -> forall e, e ∈ g u -> e ∈ vis;
  inv_frontier : forall v, v ∈ frontier -> v ∈ vis /\ dist g s v d;
  inv_next : forall v, v ∈ next <-> v ∈ vis /\ dist g s v (S d);
  inv_pred : forall v u, pred !! v = Some u ->
    v ∈ vis /\ u ∈ vis /\ v ∈ g u /\ exists n, dist g s u n /\ dist g s v (S n);
  inv_pred_dom : forall v, v ∈ vis -> v <> s -> is_Some (pred !! v)
}.

Lemma Inv_init : Inv 0 [s] [] {[s]} ∅.
Proof.
  split.
  - set_solver.
  - intros v ->%elem_of_singleton. exists 0. split; [apply dist_start|lia].
  - intros v n W Hn. replace n with 0 in W by lia.
    apply walk_0_inv in W as ->. set_solver.
  - intros u n ->%elem_of_singleton Hd [Hlt|[-> Hnot]]; [lia|].
    exfalso. apply Hnot. set_solver.
  - intros v ->%list_elem_of_singleton. split; [set_solver|apply dist_start].
  - intros v. split; [intros []%elem_of_nil|].
    intros [->%elem_of_singleton Hd].
    pose proof (dist_unique _ _ _ _ _ Hd (dist_start g s)). discriminate.
  - intros v u H. rewrite lookup_empty in H. discriminate.
  - intros v ->%elem_of_singleton Hne. contradiction.
Qed.

(** The round boundary: the next frontier becomes the current one. *)
Lemma Inv_level_up d next vis pred :
  Inv d [] next vis pred -> Inv (S d) next [] vis pred.
Proof.
  intros I. split.
  - apply I.
  - intros v Hv. destruct (inv_dist _ _ _ _ _ I v Hv) as (n & Hd & Hn).
    exists n. split; [exact Hd|lia].
  - intros v n W Hn. destruct (decide (n <= d)) as [Hle|Hgt].
    + eapply inv_near; eassumption.
    + replace n with (S d) in W by lia.
      apply walk_S_inv in W as (u & Wu & Hv).
      assert (Hu : u ∈ vis) by (eapply inv_near; [exact I|exact Wu|lia]).
      destruct (inv_dist _ _ _ _ _ I u Hu) as (m & Hd & _).
      assert (m <= d) by (apply Hd, Wu).
      eapply inv_closed; [exact I|exact Hu|exact Hd| |exact Hv].
      destruct (decide (m = d)); [right|left; lia].
      split; [assumption|]. apply not_elem_of_nil.
  - intros u n Hu Hd Hn e He.
    destruct (decide (n = S d)) as [->|Hne].
    + exfalso. destruct Hn as [Hn|[_ Hn]]; [lia|].
      apply Hn, (inv_next _ _ _ _ _ I). auto.
    + eapply inv_closed; [exact I|exact Hu|exact Hd| |exact He].
      destruct (decide (n = d)); [right|left; lia].
      split; [assumption|]. apply not_elem_of_nil.
  - intros v Hv. apply (inv_next _ _ _ _ _ I), Hv.
  - intros v. split; [intros []%elem_of_nil|]. intros [Hv Hd].
    destruct (inv_dist _ _ _ _ _ I v Hv) as (n & Hd' & Hn).
    pose proof (dist_unique _ _ _ _ _ Hd Hd'). lia.
  - apply I.
  - apply I.
Qed.

(** The title at the head of the frontier has been expanded. *)
Lemma Inv_pop d u frontier next vis pred :
  Inv d (u :: frontier) next vis pred ->
  (forall e, e ∈ g u -> e ∈ vis) ->
  Inv d frontier next vis pred.
Proof.
  intros I Hu. split; try apply I.
  - intros u' n Hu' Hd Hn e He. destruct (decide (u' = u)) as [->|Hne].
    + apply Hu, He.
    + eapply inv_closed; [exact I|exact Hu'|exact Hd| |exact He].
      destruct Hn as [Hn|[-> Hn]]; [left; exact Hn|right].
      split; [reflexivity|]. intros [->|Hin]%elem_of_cons; auto.
  - intros v Hv. apply (inv_frontier _ _ _ _ _ I). apply elem_of_cons. auto.
Qed.

(** Discovering the edges of a title [u] at distance [d] keeps the
    invariant; when the target is not produced, all the edges end up
    visited. *)
Lemma discover_spec d frontier u : forall es vis pred next found vis' pred' next',
  Inv d frontier next vis pred ->
  u ∈ vis -> dist g s u d ->
  (forall e, e ∈ es -> e ∈ g u) ->
  discover t u es vis pred next = (found, vis', pred', next') ->
  Inv d frontier next' vis' pred' /\
  vis ⊆ vis' /\
  (found = false -> forall e, e ∈ es -> e ∈ vis') /\
  (found = true -> t ∈ vis').
Proof.
  induction es as [|e es IH]; intros vis pred next found vis' pred' next' I Hu Hd Hes H;
    cbn in H.
  - injection H as <- <- <- <-. split; [exact I|split; [reflexivity|split]].
    + intros _ e []%elem_of_nil.
    + discriminate.
  - destruct (decide (e ∈ vis)) as [Hin|Hout].
    + destruct (IH _ _ _ _ _ _ _ I Hu Hd (fun x Hx => Hes x (list_elem_of_further _ _ _ Hx)) H)
        as (I' & Hsub & Hall & Hfound).
      split; [exact I'|split; [exact Hsub|split; [|exact Hfound]]].
      intros Hf x [->|Hx]%elem_of_cons; [apply Hsub, Hin|apply Hall; auto].
    + assert (He : e ∈ g u) by (apply Hes; left).
      assert (Hde : dist g s e (S d)).
      { split.
        - econstructor; [apply Hd|exact He].
        - intros m W. destruct (le_lt_dec (S d) m) as [|Hlt]; [assumption|].
          exfalso. apply Hout. eapply inv_near; [exact I|exact W|lia]. }
      assert (I1 : Inv d frontier (next ++ [e]) ({[e]} ∪ vis) (<[e := u]> pred)).
      { split.
        - apply elem_of_union_r, I.
        - intros v [->%elem_of_singleton|Hv]%elem_of_union.
          + exists (S d). auto.
          + apply (inv_dist _ _ _ _ _ I), Hv.
        - intros v n W Hn. apply elem_of_union_r. eapply inv_near; eassumption.
        - intros u' n [->%elem_of_singleton|Hu']%elem_of_union Hd' Hn x Hx.
          + pose proof (dist_unique _ _ _ _ _ Hd' Hde). lia.
          + apply elem_of_union_r.
            eapply inv_closed; [exact I|exact Hu'|exact Hd'|exact Hn|exact Hx].
        - intros v Hv. destruct (inv_frontier _ _ _ _ _ I v Hv) as [Hv' Hdv].
          split; [apply elem_of_union_r, Hv'|exact Hdv].
        - intros v. rewrite elem_of_app, list_elem_of_singleton, (inv_next _ _ _ _ _ I).
          rewrite elem_of_union, elem_of_singleton. split.
          + intros [[Hv Hdv]| ->]; auto.
          + intros [[->|Hv] Hdv]; auto.
        - intros v u'. destruct (decide (v = e)) as [->|Hne].
          + rewrite lookup_insert_eq. intros [= <-]. repeat split.
            * apply elem_of_union_l, elem_of_singleton. reflexivity.
            * apply elem_of_union_r, Hu.
            * exact He.
            * exists d. auto.
          + rewrite lookup_insert_ne by congruence. intros Hp.
            destruct (inv_pred _ _ _ _ _ I v u' Hp) as (Hv & Hu' & Hx & Hn).
            repeat split; auto; apply elem_of_union_r; assumption.
        - intros v Hv Hne. destruct (decide (v = e)) as [->|Hne'].
          + rewrite lookup_insert_eq. eauto.
          + rewrite lookup_insert_ne by congruence.
            apply (inv_pred_dom _ _ _ _ _ I); [|exact Hne].
            apply elem_of_union in Hv as [->%elem_of_singleton|Hv]; [contradiction|exact Hv]. }
      destruct (String.eqb e t) eqn:Het.
      * injection H as <- <- <- <-. apply String.eqb_eq in Het as ->.
        split; [exact I1|split; [|split]].
        -- apply union_subseteq_r.
        -- discriminate.
        -- intros _. apply elem_of_union_l, elem_of_singleton. reflexivity.
      * assert (Hu1 : u ∈ {[e]} ∪ vis) by (apply elem_of_union_r, Hu).
        destruct (IH _ _ _ _ _ _ _ I1 Hu1 Hd (fun x Hx => Hes x (list_elem_of_further _ _ _ Hx)) H)
          as (I' & Hsub & Hall & Hfound).
        split; [exact I'|split; [|split; [|exact Hfound]]].
        -- etrans; [apply union_subseteq_r|exact Hsub].
        -- intros Hf x [->|Hx]%elem_of_cons; [|apply Hall; auto].
           apply Hsub, elem_of_union_l, elem_of_singleton. reflexivity.
Qed.

(** Walking the predecessors back from a title gives, reversed, a path from
    the start whose number of hops is the distance of the title. *)
Lemma walk_back_spec d frontier next vis pred fuel : forall v l,
  Inv d frontier next vis pred ->
  walk_back fuel pred s v = Some l ->
  exists n, dist g s v n /\ length l = S n /\ route g s (rev l) v.
Proof.
  induction fuel as [|fuel IH]; intros v l I H; cbn in H.
  - destruct (String.eqb v s) eqn:E; [|discriminate].
    apply String.eqb_eq in E as ->. injection H as <-.
    exists 0. split; [apply dist_start|]. split; [reflexivity|constructor].
  - destruct (String.eqb v s) eqn:E.
    + apply String.eqb_eq in E as ->. injection H as <-.
      exists 0. split; [apply dist_start|]. split; [reflexivity|constructor].
    + destruct (pred !! v) as [u|] eqn:Hp; [|discriminate].
      destruct (walk_back fuel pred s u) as [l'|] eqn:Hw; [|discriminate].
      injection H as <-.
      destruct (IH u l' I Hw) as (n & Hd & Hl & Hr).
      destruct (inv_pred _ _ _ _ _ I v u Hp) as (_ & _ & He & m & Hdu & Hdv).
      rewrite (dist_unique _ _ _ _ _ Hdu Hd) in Hdv.
      exists (S n). split; [exact Hdv|]. split; [cbn; lia|].
      cbn [rev]. econstructor; eassumption.
Qed.

(** The walk back from a visited title does not run out of fuel: the
    titles it passes are distinct keys of the predecessor map. *)
Lemma walk_back_keys d frontier next vis pred :
  Inv d frontier next vis pred ->
  forall n v, v ∈ vis -> dist g s v n ->
  exists keys : list string,
    NoDup keys /\ length keys = n /\
    forall k, k ∈ keys ->
      is_Some (pred !! k) /\ exists m, dist g s k m /\ m <= n.
Proof.
  intros I. induction n as [|n IH]; intros v Hv Hd.
  - exists []. split; [constructor|]. split; [reflexivity|].
    intros k []%elem_of_nil.
  - assert (Hne : v <> s).
    { intros ->. pose proof (dist_unique _ _ _ _ _ Hd (dist_start g s)). discriminate. }
    destruct (inv_pred_dom _ _ _ _ _ I v Hv Hne) as [u Hp].
    destruct (inv_pred _ _ _ _ _ I v u Hp) as (_ & Hu & _ & m & Hdu & Hdv).
    pose proof (dist_unique _ _ _ _ _ Hd Hdv) as [= ->].
    destruct (IH u Hu Hdu) as (keys & Hnd & Hlen & Hkeys).
    exists (v :: keys). split; [|split].
    + constructor; [|exact Hnd]. intros Hin.
      destruct (Hkeys v Hin) as (_ & k & Hk & Hle).
      pose proof (dist_unique _ _ _ _ _ Hd Hk). lia.
    + cbn. rewrite Hlen. reflexivity.
    + intros k [->|Hk]%elem_of_cons.
      * split; [eauto|]. exists (S m). split; [exact Hd|lia].
      * destruct (Hkeys k Hk) as (Hs & j & Hj & Hle).
        split; [exact Hs|]. exists j. split; [exact Hj|lia].
Qed.

Lemma walk_back_total d frontier next vis pred :
  Inv d frontier next vis pred ->
  forall n v fuel, v ∈ vis -> dist g s v n -> n <= fuel ->
  is_Some (walk_back fuel pred s v).
Proof.
  intros I. induction n as [|n IH]; intros v fuel Hv Hd Hf.
  - destruct Hd as [W _]. apply walk_0_inv in W as ->.
    destruct fuel; cbn; rewrite String.eqb_refl; eauto.
  - assert (Hne : v <> s).
    { intros ->. pose proof (dist_unique _ _ _ _ _ Hd (dist_start g s)). discriminate. }
    destruct fuel as [|fuel]; [lia|]. cbn.
    apply String.eqb_neq in Hne as ->.
    destruct (inv_pred_dom _ _ _ _ _ I v Hv) as [u Hp].
    { intros ->. pose proof (dist_unique _ _ _ _ _ Hd (dist_start g s)). discriminate. }
    rewrite Hp.
    destruct (inv_pred _ _ _ _ _ I v u Hp) as (_ & Hu & _ & m & Hdu & Hdv).
    pose proof (dist_unique _ _ _ _ _ Hd Hdv) as [= ->].
    destruct (IH u fuel Hu Hdu) as [l Hl]; [lia|]. rewrite Hl. cbn. eauto.
Qed.

Lemma reconstruct_total d frontier next vis pred v :
  Inv d frontier next vis pred -> v ∈ vis ->
  is_Some (reconstruct pred s v).
Proof.
  intros I Hv. destruct (inv_dist _ _ _ _ _ I v Hv) as (n & Hd & _).
  destruct (walk_back_keys _ _ _ _ _ I n v Hv Hd) as (keys & Hnd & Hlen & Hkeys).
  assert (Hsize : n <= size pred).
  { rewrite <- Hlen, <- size_dom, <- (size_list_to_set (C := gset string) keys Hnd).
    apply subseteq_size. intros k Hk%elem_of_list_to_set.
    apply elem_of_dom, Hkeys, Hk. }
  destruct (walk_back_total _ _ _ _ _ I n v (size pred) Hv Hd Hsize) as [l Hl].
  unfold reconstruct. rewrite Hl. cbn. eauto.
Qed.

Lemma reconstruct_spec d frontier next vis pred v p :
  Inv d frontier next vis pred ->
  reconstruct pred s v = Some p ->
  exists n, dist g s v n /\ length p = S n /\ route g s p v.
Proof.
  intros I H. unfold reconstruct in H.
  destruct (walk_back (size pred) pred s v) as [l|] eqn:Hw; [|discriminate].
  injection H as <-.
  destruct (walk_back_spec _ _ _ _ _ _ _ _ I Hw) as (n & Hd & Hl & Hr).
  exists n. split; [exact Hd|]. split; [rewrite length_rev; exact Hl|exact Hr].
Qed.

(** A lookup through a coherent cache gives what the source gives, and
    leaves the cache coherent. *)
Lemma get_or_fetch_spec cache name page cache' :
  coherent source cache ->
  get_or_fetch source cache name = (page, cache') ->
  page = source name /\ coherent source cache'.
Proof.
  intros Hc H. unfold get_or_fetch in H.
  destruct (cache !! name) as [entry|] eqn:Hl; injection H as <- <-.
  - split; [apply Hc, Hl|exact Hc].
  - split; [reflexivity|]. intros n e. destruct (decide (n = name)) as [->|Hne].
    + rewrite lookup_insert_eq. intros [= <-]. reflexivity.
    + rewrite lookup_insert_ne by congruence. apply Hc.
Qed.

Lemma discover_not_found u : forall es vis pred next vis' pred' next',
  discover t u es vis pred next = (false, vis', pred', next') ->
  t ∉ vis -> t ∉ vis'.
Proof.
  induction es as [|e es IH]; intros vis pred next vis' pred' next' H Ht; cbn in H.
  - injection H as <- <- <-. exact Ht.
  - destruct (decide (e ∈ vis)); [eapply IH; eassumption|].
    destruct (String.eqb e t) eqn:Het; [discriminate|].
    eapply IH; [exact H|]. apply String.eqb_neq in Het.
    intros [->%elem_of_singleton|Hin]%elem_of_union; auto.
Qed.

(** One expansion, of the title [u] at the head of the frontier at depth
    [d]: either the target is produced, at distance [d + 1], and the path
    returned is a shortest one; or the invariant holds for the rest of the
    frontier. *)
Lemma expand_spec d u frontier next st r next' st' :
  Inv d (u :: frontier) next (visited st) (predecessor st) ->
  coherent source (pages st) ->
  t ∉ visited st ->
  expand source hard s t u next st = (r, next', st') ->
  coherent source (pages st') /\
  expanded st' = S (expanded st) /\
  match r with
  | Some p =>
      dist g s t (S d) /\ length p = S (S d) /\ route g s p t /\ t ∈ visited st'
  | None =>
      Inv d frontier next' (visited st') (predecessor st') /\ t ∉ visited st'
  end.
Proof.
  intros I Hc Ht H. unfold expand in H.
  destruct (get_or_fetch source (pages st) u) as [page pages'] eqn:Hg.
  apply get_or_fetch_spec in Hg as [-> Hc']; [|exact Hc].
  destruct (inv_frontier _ _ _ _ _ I u) as [Hu Hd]; [left|].
  destruct (source u) as [p|] eqn:Hs.
  - destruct (discover t u (EdgeSet p hard) (visited st) (predecessor st) next)
      as [[[found vis'] pred'] next''] eqn:Hdisc.
    assert (Hes : forall e, e ∈ EdgeSet p hard -> e ∈ g u).
    { intros e He. unfold edges. rewrite Hs. exact He. }
    destruct (discover_spec _ _ _ _ _ _ _ _ _ _ _ I Hu Hd Hes Hdisc)
      as (I' & Hsub & Hall & Hfound).
    injection H as <- <- <-. cbn [pages expanded visited predecessor].
    split; [exact Hc'|]. split; [reflexivity|].
    destruct found.
    + destruct (reconstruct_total _ _ _ _ _ t I' (Hfound eq_refl)) as [path Hp].
      rewrite Hp.
      destruct (reconstruct_spec _ _ _ _ _ _ _ I' Hp) as (n & Hdt & Hl & Hr).
      assert (n = S d) as ->.
      { destruct (inv_dist _ _ _ _ _ I' t (Hfound eq_refl)) as (m & Hm & Hle).
        pose proof (dist_unique _ _ _ _ _ Hdt Hm) as ->.
        destruct (le_lt_dec m d) as [Hmd|]; [|lia].
        exfalso. apply Ht. eapply inv_near; [exact I|apply Hm|exact Hmd]. }
      split; [exact Hdt|]. split; [exact Hl|]. split; [exact Hr|].
      apply Hfound. reflexivity.
    + split; [|eapply discover_not_found; eassumption].
      eapply Inv_pop; [exact I'|]. intros e He. apply Hall; [reflexivity|].
      unfold edges in He. rewrite Hs in He. exact He.
  - injection H as <- <- <-. cbn [pages expanded visited predecessor].
    split; [exact Hc'|]. split; [reflexivity|]. split; [|exact Ht].
    eapply Inv_pop; [exact I|]. intros e He. unfold edges in He.
    rewrite Hs in He. apply elem_of_nil in He as [].
Qed.

(** When both frontiers are empty, every title that can be reached has been
    visited. *)
Lemma Inv_exhausted d vis pred :
  Inv d [] [] vis pred -> forall n v, walk g s n v -> v ∈ vis.
Proof.
  intros I n v W.
  assert (Hall : forall k, Inv (k + d) [] [] vis pred).
  { induction k as [|k IH]; [exact I|]. apply Inv_level_up, IH. }
  eapply inv_near; [apply (Hall n)|exact W|lia].
Qed.

(** The search loop. A path returned is a shortest one, and its number of
    hops is at most the number of titles expanded; a search that ends
    without a path before its budget is used up has visited every title
    that can be reached, the target not being one of them. *)
Lemma bfs_spec : forall budget d frontier next st r st',
  Inv d frontier next (visited st) (predecessor st) ->
  coherent source (pages st) ->
  t ∉ visited st ->
  d <= expanded st -> (frontier = [] -> S d <= expanded st) ->
  bfs source hard s t budget frontier next st = (r, st') ->
  coherent source (pages st') /\
  expanded st' <= expanded st + budget /\
  match r with
  | Some p =>
      exists n, dist g s t n /\ length p = S n /\ route g s p t /\
                n <= expanded st' /\ t ∈ visited st'
  | None =>
      (t ∉ visited st') /\
      (expanded st' < expanded st + budget -> forall n, ~ walk g s n t)
  end.
Proof.
  induction budget as [|budget IH]; intros d frontier next st r st' I Hc Ht Hd Hd' H;
    cbn [bfs] in H.
  - injection H as <- <-. split; [exact Hc|]. split; [lia|].
    split; [exact Ht|]. intros; lia.
  - destruct (pick frontier next) as [[[u frontier'] next0]|] eqn:Hpick.
    + assert (Hlevel : exists d', Inv d' (u :: frontier') next0 (visited st) (predecessor st)
                                  /\ d' <= expanded st).
      { destruct frontier as [|x frontier].
        - destruct next as [|y next]; [discriminate|]. injection Hpick as <- <- <-.
          exists (S d). split; [apply Inv_level_up, I|auto].
        - injection Hpick as <- <- <-. exists d. auto. }
      destruct Hlevel as (d' & I' & Hd'').
      destruct (expand source hard s t u next0 st) as [[[path|] next'] st1] eqn:Hex;
        destruct (expand_spec _ _ _ _ _ _ _ _ I' Hc Ht Hex) as (Hc1 & He1 & Hr).
      * injection H as <- <-. split; [exact Hc1|]. split; [lia|].
        destruct Hr as (Hdt & Hl & Hr & Hin). exists (S d').
        split; [exact Hdt|]. split; [exact Hl|]. split; [exact Hr|].
        split; [lia|exact Hin].
      * destruct Hr as [I1 Ht1].
        destruct (IH d' frontier' next' st1 r st' I1 Hc1 Ht1) as (Hc2 & He2 & Hr2);
          [lia|lia|exact H|].
        split; [exact Hc2|]. split; [lia|].
        destruct r as [p|]; [exact Hr2|]. destruct Hr2 as [Hn Hr2].
        split; [exact Hn|]. intros Hlt. apply Hr2. lia.
    + injection H as <- <-. split; [exact Hc|]. split; [lia|].
      split; [exact Ht|]. intros _ n W.
      destruct frontier; [|discriminate]. destruct next; [|discriminate].
      apply Ht. eapply Inv_exhausted; eassumption.
Qed.

(** *** Enough budget finds the target *)

(** The titles expanded so far: as many as the counter says, distinct from
    each other and from those still in the frontier, all within the current
    depth; no title is twice in the next frontier. *)
Record Ghost (d : nat) (done frontier next : list string) (st : SearchState)
  : Prop := mkGhost {
  gh_count : expanded st = length done;
  gh_nodup : NoDup (done ++ frontier);
  gh_next : NoDup next;
  gh_done : forall v, v ∈ done -> exists n, dist g s v n /\ n <= d
}.

Lemma Ghost_level_up d done next st :
  Inv d [] next (visited st) (predecessor st) ->
  Ghost d done [] next st -> Ghost (S d) done next [] st.
Proof.
  intros I G. split.
  - apply G.
  - apply NoDup_app. split; [|split].
    + pose proof (gh_nodup _ _ _ _ _ G) as H. rewrite app_nil_r in H. exact H.
    + intros v Hv Hn. destruct (gh_done _ _ _ _ _ G v Hv) as (n & Hd & Hle).
      apply (inv_next _ _ _ _ _ I) in Hn as [_ Hd'].
      pose proof (dist_unique _ _ _ _ _ Hd Hd'). lia.
    + apply G.
  - constructor.
  - intros v Hv. destruct (gh_done _ _ _ _ _ G v Hv) as (n & Hd & Hle).
    exists n. split; [exact Hd|lia].
Qed.

Lemma discover_nodup u : forall es vis pred next found vis' pred' next',
  discover t u es vis pred next = (found, vis', pred', next') ->
  NoDup next -> (forall v, v ∈ next -> v ∈ vis) ->
  NoDup next' /\ (forall v, v ∈ next' -> v ∈ vis').
Proof.
  induction es as [|e es IH]; intros vis pred next found vis' pred' next' H Hnd Hin;
    cbn in H.
  - injection H as <- <- <- <-. auto.
  - destruct (decide (e ∈ vis)) as [He|He]; [eapply IH; eassumption|].
    assert (Hnd' : NoDup (next ++ [e])).
    { apply NoDup_app. split; [exact Hnd|]. split; [|apply NoDup_singleton].
      intros v Hv ->%list_elem_of_singleton. apply He, Hin, Hv. }
    assert (Hin' : forall v, v ∈ next ++ [e] -> v ∈ {[e]} ∪ vis).
    { intros v [Hv| ->%list_elem_of_singleton]%elem_of_app.
      - apply elem_of_union_r, Hin, Hv.
      - apply elem_of_union_l, elem_of_singleton. reflexivity. }
    destruct (String.eqb e t).
    + injection H as <- <- <- <-. auto.
    + eapply IH; eassumption.
Qed.

Lemma expand_ghost d u done frontier next st next' st' :
  Inv d (u :: frontier) next (visited st) (predecessor st) ->
  Ghost d done (u :: frontier) next st ->
  expand source hard s t u next st = (None, next', st') ->
  Ghost d (done ++ [u]) frontier next' st'.
Proof.
  intros I G H.
  assert (Hcount : expanded st' = length (done ++ [u]) /\ NoDup next').
  { unfold expand in H.
    destruct (get_or_fetch source (pages st) u) as [[p|] pages'].
    - destruct (discover t u (EdgeSet p hard) (visited st) (predecessor st) next)
        as [[[found vis'] pred'] next''] eqn:Hdisc.
      apply discover_nodup in Hdisc as [Hnd _];
        [|apply G|intros v Hv; apply (inv_next _ _ _ _ _ I), Hv].
      injection H as _ <- <-. cbn. rewrite length_app, (gh_count _ _ _ _ _ G).
      cbn. split; [lia|exact Hnd].
    - injection H as <- <-. cbn. rewrite length_app, (gh_count _ _ _ _ _ G).
      cbn. split; [lia|apply G]. }
  destruct Hcount as [Hc Hnd]. split.
  - exact Hc.
  - rewrite <- app_assoc. apply G.
  - exact Hnd.
  - intros v [Hv| ->%list_elem_of_singleton]%elem_of_app.
    + apply (gh_done _ _ _ _ _ G), Hv.
    + exists d. split; [|lia]. apply (inv_frontier _ _ _ _ _ I). left.
Qed.

Lemma near_dist n v k : dist g s v k -> k < n -> v ∈ near n.
Proof.
  intros [W _] Hk. unfold Wiki.near. apply list_elem_of_In, in_flat_map.
  exists k. split; [apply in_seq; lia|]. apply list_elem_of_In, hops_walk, W.
Qed.

(** While the target, at distance [D], has not been visited, the search is
    at a depth below [D] and has expanded only titles of [near D]. *)
Lemma Ghost_bound d done frontier next st D :
  Inv d frontier next (visited st) (predecessor st) ->
  Ghost d done frontier next st ->
  t ∉ visited st -> dist g s t D ->
  expanded st <= length (near D).
Proof.
  intros I G Ht HD.
  assert (Hd : d < D).
  { destruct (le_lt_dec D d) as [Hle|]; [|assumption].
    exfalso. apply Ht. eapply inv_near; [exact I|apply HD|exact Hle]. }
  rewrite (gh_count _ _ _ _ _ G). apply submseteq_length, NoDup_submseteq.
  - pose proof (gh_nodup _ _ _ _ _ G) as H. apply NoDup_app in H as [H _]. exact H.
  - intros v Hv. destruct (gh_done _ _ _ _ _ G v Hv) as (n & Hn & Hle).
    eapply near_dist; [exact Hn|lia].
Qed.

Lemma bfs_gives_up D : forall budget d done frontier next st st',
  Inv d frontier next (visited st) (predecessor st) ->
  Ghost d done frontier next st ->
  coherent source (pages st) ->
  t ∉ visited st -> dist g s t D ->
  bfs source hard s t budget frontier next st = (None, st') ->
  expanded st' <= length (near D).
Proof.
  induction budget as [|budget IH]; intros d done frontier next st st' I G Hc Ht HD H;
    cbn [bfs] in H.
  - injection H as <-. eapply Ghost_bound; eassumption.
  - destruct (pick frontier next) as [[[u frontier'] next0]|] eqn:Hpick.
    + assert (Hlevel : exists d', Inv d' (u :: frontier') next0 (visited st) (predecessor st)
                                  /\ Ghost d' done (u :: frontier') next0 st).
      { destruct frontier as [|x frontier].
        - destruct next as [|y next]; [discriminate|]. injection Hpick as <- <- <-.
          exists (S d). split; [apply Inv_level_up, I|apply Ghost_level_up; assumption].
        - injection Hpick as <- <- <-. exists d. auto. }
      destruct Hlevel as (d' & I' & G').
      destruct (expand source hard s t u next0 st) as [[[path|] next'] st1] eqn:Hex;
        [discriminate|].
      destruct (expand_spec _ _ _ _ _ _ _ _ I' Hc Ht Hex) as (Hc1 & _ & I1 & Ht1).
      eapply IH; [exact I1|eapply expand_ghost; eassumption|exact Hc1|exact Ht1|exact HD|exact H].
    + injection H as <-. eapply Ghost_bound; eassumption.
Qed.

End Search.

Lemma append_length (a b : string) :
  String.length (a +++ b) = String.length a + String.length b.
Proof.
  induction a as [|c a IH]; [reflexivity|].
  change (String c a +++ b) with (String c (a +++ b)). cbn. rewrite IH. reflexivity.
Qed.

Lemma chain_title_length n : String.length (chain_title n) = S n.
Proof.
  induction n as [|n IH]; [reflexivity|]. cbn [chain_title].
  rewrite append_length, IH. cbn. lia.
Qed.

(** On the chain, the title reached from [x] in [n] hops is [chain_title n]. *)
Lemma chain_walk n v : walk (edges chain false) "x" n v -> v = chain_title n.
Proof.
  induction 1 as [|n u v _ IH Hv]; [reflexivity|].
  subst u. apply list_elem_of_singleton in Hv. exact Hv.
Qed.

Lemma coherent_empty source : coherent source ∅.
Proof. intros name entry H. rewrite lookup_empty in H. discriminate. Qed.

Lemma search_spec source core start target r st :
  coherent source (page_cache core) ->
  search source core start target = (r, st) ->
  expanded st <= max_expanded core /\
  match r with
  | Some p =>
      exists n,
        dist (edges source (hard_mode core)) (identifier start) (identifier target) n /\
        length p = S n /\
        route (edges source (hard_mode core)) (identifier start) p (identifier target) /\
        n <= expanded st /\ identifier target ∈ visited st
  | None =>
      (identifier target ∉ visited st) /\
      (expanded st < max_expanded core ->
       forall n, ~ walk (edges source (hard_mode core))
                        (identifier start) n (identifier target))
  end.
Proof.
  intros Hc H. unfold search in H.
  destruct (String.eqb (identifier start) (identifier target)) eqn:E.
  - injection H as <- <-. apply String.eqb_eq in E. cbn [expanded].
    split; [lia|]. exists 0. rewrite <- E. cbn [visited].
    split; [apply dist_start|]. split; [reflexivity|]. split; [constructor|].
    split; [lia|]. apply elem_of_singleton. reflexivity.
  - apply String.eqb_neq in E.
    eapply bfs_spec in H as (_ & He & Hr); cbn [visited predecessor pages expanded].
    + cbn [expanded] in He, Hr. split; [lia|]. destruct r as [p|]; exact Hr.
    + apply Inv_init.
    + exact Hc.
    + intros Hin%elem_of_singleton. congruence.
    + lia.
    + discriminate.
Qed.

(** With a cap above the number of titles nearer to the start than the
    target, the search finds the target. *)
Lemma search_finds source core start target d :
  coherent source (page_cache core) ->
  dist (edges source (hard_mode core)) (identifier start) (identifier target) d ->
  length (near (edges source (hard_mode core)) (identifier start) d)
    < max_expanded core ->
  exists p, fst (search source core start target) = Some p.
Proof.
  intros Hc Hd Hcap. unfold search.
  destruct (String.eqb (identifier start) (identifier target)) eqn:E; [eauto|].
  apply String.eqb_neq in E.
  destruct (bfs source (hard_mode core) (identifier start) (identifier target)
              (max_expanded core) [identifier start] []
              (mkSearchState {[identifier start]} ∅ (page_cache core) 0))
    as [[p|] st] eqn:Hb; [eauto|exfalso].
  assert (Ht : identifier target ∉ ({[identifier start]} : gset string)).
  { intros Hin%elem_of_singleton. congruence. }
  pose proof Hb as Hb'.
  eapply bfs_spec in Hb as (_ & _ & Hr); cbn [visited predecessor pages expanded];
    [|apply Inv_init|exact Hc|exact Ht|lia|discriminate].
  eapply (bfs_gives_up _ _ _ _ d _ 0 []) in Hb';
    cbn [visited predecessor pages expanded];
    [|apply Inv_init| |exact Hc|exact Ht|exact Hd].
  - cbn [expanded] in Hr. apply (proj2 Hr ltac:(lia) d), Hd.
  - split; cbn; [reflexivity|apply NoDup_singleton|constructor|].
    intros v []%elem_of_nil.
Qed.

End WikiFacts.

(** * The claims *)

(** C1. Over a fixed snapshot, a path returned by [find_short_path] leads
    from the start to the target along edges of the snapshot, and its number
    of hops is the shortest-hop distance between them: the distance the
    reference search computes as soon as it is given that many rounds. A
    path is returned for every connected pair, once the effort cap exceeds
    the number of titles nearer to the start than the target. *)
Theorem find_short_path_shortest (source : Wiki.PageSource) (core : Wiki.Core)
  (start target : Page) :
  Wiki.coherent source (Wiki.page_cache core) ->
  (forall p,
      fst (Wiki.find_short_path source core start target) = Some p ->
      Wiki.route (Wiki.edges source (Wiki.hard_mode core))
                 (Wiki.identifier start) p (Wiki.identifier target) /\
      exists d,
        length p = S d /\
        Wiki.dist (Wiki.edges source (Wiki.hard_mode core))
                  (Wiki.identifier start) (Wiki.identifier target) d /\
        (forall rounds, d <= rounds ->
           Wiki.reference_bfs (Wiki.edges source (Wiki.hard_mode core))
             (Wiki.identifier start) (Wiki.identifier target) rounds = Some d) /\
        (forall rounds d',
           Wiki.reference_bfs (Wiki.edges source (Wiki.hard_mode core))
             (Wiki.identifier start) (Wiki.identifier target) rounds = Some d' ->
           d' = d)) /\
  (forall d,
      Wiki.dist (Wiki.edges source (Wiki.hard_mode core))
                (Wiki.identifier start) (Wiki.identifier target) d ->
      length (Wiki.near (Wiki.edges source (Wiki.hard_mode core))
                (Wiki.identifier start) d)
        < Wiki.max_expanded core ->
      exists p, fst (Wiki.find_short_path source core start target) = Some p).
Proof.
  intros Hc. unfold Wiki.find_short_path.
  destruct (Wiki.search source core start target) as [r st] eqn:Hs. cbn [fst].
  split.
  - intros p ->.
    apply WikiFacts.search_spec in Hs as [_ (n & Hd & Hl & Hr & _)]; [|exact Hc].
    split; [exact Hr|]. exists n. split; [exact Hl|]. split; [exact Hd|]. split.
    + intros rounds Hle. apply WikiFacts.reference_bfs_spec. auto.
    + intros rounds d' H'. apply WikiFacts.reference_bfs_spec in H' as [_ H'].
      eapply WikiFacts.dist_unique; eassumption.
  - intros d Hd Hcap.
    destruct (WikiFacts.search_finds _ _ _ _ _ Hc Hd Hcap) as [p Hp].
    rewrite Hs in Hp. eauto.
Qed.

Lemma find_short_path_shortest_witness :
  (Wiki.route (Wiki.edges Wiki.diamond false) "A" ["A"; "B"; "D"] "D" /\
   exists d,
     length ["A"; "B"; "D"] = S d /\
     Wiki.dist (Wiki.edges Wiki.diamond false) "A" "D" d /\
     (forall rounds, d <= rounds ->
        Wiki.reference_bfs (Wiki.edges Wiki.diamond false) "A" "D" rounds = Some d) /\
     (forall rounds d',
        Wiki.reference_bfs (Wiki.edges Wiki.diamond false) "A" "D" rounds = Some d' ->
        d' = d)) /\
  exists p,
    fst (Wiki.find_short_path Wiki.diamond (Wiki.fresh_core false 10)
           Wiki.diamond_a Wiki.diamond_d) = Some p.
Proof.
  destruct (find_short_path_shortest Wiki.diamond (Wiki.fresh_core false 10)
              Wiki.diamond_a Wiki.diamond_d
              (WikiFacts.coherent_empty Wiki.diamond)) as [Hsound Hfinds].
  assert (H : fst (Wiki.find_short_path Wiki.diamond (Wiki.fresh_core false 10)
                     Wiki.diamond_a Wiki.diamond_d) = Some ["A"; "B"; "D"])
    by (vm_compute; reflexivity).
  pose proof (Hsound _ H) as Hs. split; [exact Hs|].
  destruct Hs as (_ & d & Hl & Hd & _). injection Hl as <-.
  apply (Hfinds 2 Hd). vm_compute. lia.
Defined.

(** C2. A search always ends, after expanding at most as many titles as the
    effort cap allows. Its result is "not connected" exactly when it has not
    discovered the target by then; that is so, in particular, whenever the
    target is not within that many hops of the start or cannot be reached at
    all. *)
Theorem search_within_cap (source : Wiki.PageSource) (core : Wiki.Core)
  (start target : Page) :
  Wiki.coherent source (Wiki.page_cache core) ->
  Wiki.expanded (snd (Wiki.search source core start target))
    <= Wiki.max_expanded core /\
  (fst (Wiki.find_short_path source core start target) = None <->
   Wiki.identifier target ∉ Wiki.visited (snd (Wiki.search source core start target))) /\
  ((forall n, Wiki.walk (Wiki.edges source (Wiki.hard_mode core))
                (Wiki.identifier start) n (Wiki.identifier target) ->
              Wiki.max_expanded core < n) ->
   fst (Wiki.find_short_path source core start target) = None).
Proof.
  intros Hc. unfold Wiki.find_short_path.
  destruct (Wiki.search source core start target) as [r st] eqn:Hs. cbn [fst snd].
  apply WikiFacts.search_spec in Hs as [He Hr]; [|exact Hc].
  split; [exact He|]. split.
  - destruct r as [p|].
    + destruct Hr as (n & _ & _ & _ & _ & Hin). split; [discriminate|].
      intros Hout. contradiction.
    + split; [intros _; apply Hr|reflexivity].
  - intros Hfar. destruct r as [p|]; [|reflexivity].
    destruct Hr as (n & [W _] & _ & _ & Hn & _). apply Hfar in W. lia.
Qed.

(** On the endless chain from [x] the title 100 hops away is out of reach
    of a cap of 50: the search gives up after 50 expansions although a path
    exists. *)
Lemma search_within_cap_witness :
  Wiki.expanded (snd (Wiki.search Wiki.chain (Wiki.fresh_core false 50)
                        (Wiki.chain_page 0) (Wiki.chain_page 100))) <= 50 /\
  fst (Wiki.find_short_path Wiki.chain (Wiki.fresh_core false 50)
         (Wiki.chain_page 0) (Wiki.chain_page 100)) = None.
Proof.
  destruct (search_within_cap Wiki.chain (Wiki.fresh_core false 50)
              (Wiki.chain_page 0) (Wiki.chain_page 100)
              (WikiFacts.coherent_empty Wiki.chain)) as (Hcap & _ & Hnone).
  split; [exact Hcap|]. apply Hnone. intros n W.
  apply WikiFacts.chain_walk in W.
  apply (f_equal String.length) in W.
  rewrite (WikiFacts.chain_title_length n) in W.
  change (String.length (Wiki.chain_title 100) = S n) in W.
  rewrite WikiFacts.chain_title_length in W.
  change (50 < n). lia.
Defined.

(** C3. A search from a page to a page with the same identifier returns the
    one-element path made of the page's title, whatever the policy, the cap
    and the cache. *)
Theorem self_path (source : Wiki.PageSource) (core : Wiki.Core) (start target : Page) :
  Wiki.identifier start = Wiki.identifier target ->
  fst (Wiki.find_short_path source core start target) = Some [title start].
Proof.
  intros E. unfold Wiki.find_short_path, Wiki.search.
  rewrite E, String.eqb_refl. reflexivity.
Qed.

Lemma self_path_witness :
  fst (Wiki.find_short_path Wiki.diamond (Wiki.fresh_core true 0)
         Wiki.diamond_a Wiki.diamond_a) = Some ["A"].
Proof.
  apply (self_path Wiki.diamond (Wiki.fresh_core true 0)
           Wiki.diamond_a Wiki.diamond_a).
  reflexivity.
Defined.

(** C4. In a round, each of the two searches gives its side the score 100
    when [find_short_path] returned a falsy value, and the length of the
    returned path otherwise. *)
Theorem round_scores (words : list string) (tr : list call) (rd : Round) :
  run (round words) tr (Returned rd) ->
  searches tr = [(start_page rd, computer_page rd, computer_path rd);
                 (start_page rd, user_page rd, user_path rd)] /\
  computer_score rd =
    (if truthy_path (computer_path rd) then len (computer_path rd) else 100) /\
  user_score rd =
    (if truthy_path (user_path rd) then len (user_path rd) else 100).
Proof.
  intros H. apply round_ret in H as (g & _ & -> & ->).
  rewrite round_trace_searches. repeat split.
Qed.

Lemma round_scores_witness :
  searches sample_trace =
    [(Some page_a, Some page_c, Some ["Alpha"; "Beta"; "Gamma"]);
     (Some page_a, Some page_b, None)] /\
  computer_score sample_round = 3 /\ user_score sample_round = 100.
Proof. exact (round_scores sample_words sample_trace sample_round sample_run). Defined.

(** C5, at the failing input. The path found for the computer's page has 101
    titles and scores 101; the user's page is not connected and scores the
    sentinel 100: the found path outscores the absent one, and the computer
    is declared the winner. *)
Theorem sentinel_outscored :
  run (round far_words) far_trace (Returned far_round) /\
  searches far_trace =
    [(Some (Wiki.chain_page 0), Some far_page, far_path);
     (Some (Wiki.chain_page 0), Some lone_page, lone_path)] /\
  len far_path = 101 /\ lone_path = None /\
  score far_path = 101 /\ score lone_path = 100 /\
  last (printed far_trace) = Some "I win!".
Proof.
  split; [apply (exec_run 100 far_script); vm_compute; reflexivity|].
  vm_compute. repeat split; reflexivity.
Qed.

(** C6, counterexample. A complete round in which [set_hard_mode] is not
    called at all. *)
Lemma round_without_policy :
  ~ (forall words tr rd,
        run (round words) tr (Returned rd) -> length (policies tr) = 1).
Proof.
  intros H. specialize (H _ _ _ sample_run). vm_compute in H. discriminate.
Qed.

(** C6, amended. [set_hard_mode] is called once in a run of [main], before
    the game loop and so before every search, with the mode chosen at the
    prompt; it is not called again in any round. A run that has not reached
    the game loop has made no search and at most one call; a run that has is
    the prologue, with exactly one call, followed by a run of the game loop
    with none. *)
Theorem policy_set_before_loop (tr : list call) (o : ending unit) :
  run main tr o ->
  (searches tr = [] /\ length (policies tr) <= 1) \/
  (exists mode cmd words rest,
      tr = prologue_trace mode cmd words ++ rest /\
      policies (prologue_trace mode cmd words) = [hard_selected mode] /\
      searches (prologue_trace mode cmd words) = [] /\
      run (game_loop words) rest o /\
      policies rest = [] /\
      policies tr = [hard_selected mode]).
Proof.
  intros H. apply main_run in H as [(F & L & _)|(m & c & ws & rest & _ & -> & H)].
  - left. split; [|exact L]. apply flat_map_nil.
    eapply Forall_impl; [exact F|]. exact prologue_call_search.
  - right. exists m, c, ws, rest.
    assert (Hp : policies rest = []).
    { apply game_loop_safe in H as H'. destruct H' as [F _].
      apply flat_map_nil. eapply Forall_impl; [exact F|]. exact round_call_policy. }
    repeat split; auto.
    unfold policies in *. rewrite flat_map_app, Hp. reflexivity.
Qed.

Lemma policy_set_before_loop_witness :
  (searches two_rounds_trace = [] /\ length (policies two_rounds_trace) <= 1) \/
  (exists mode cmd words rest,
      two_rounds_trace = prologue_trace mode cmd words ++ rest /\
      policies (prologue_trace mode cmd words) = [hard_selected mode] /\
      searches (prologue_trace mode cmd words) = [] /\
      run (game_loop words) rest (Returned tt) /\
      policies rest = [] /\
      policies two_rounds_trace = [hard_selected mode]).
Proof. exact (policy_set_before_loop two_rounds_trace (Returned tt) two_rounds_run). Defined.

(** In the game of two rounds the policy is set once and four searches are
    made. *)
Example two_rounds_policy :
  policies two_rounds_trace = [true] /\ length (searches two_rounds_trace) = 4.
Proof. vm_compute. split; reflexivity. Qed.




(** C8. For each of the three pages of a round, the game prints the label
    with the page's title, and a line made of [Summary: ], the first 500
    characters of the page's summary (all of it when it has no more) and an
    ellipsis; characters are counted as Python counts them, by code point.
    The pages are only read: the searches receive the very pages the lookups
    returned. *)
Theorem round_shows_summaries (words : list string) (tr : list call) (rd : Round) :
  run (round words) tr (Returned rd) ->
  exists s c u asked results,
    resolved tr = [s; c; u] /\
    printed tr =
      shown_lines "The starting page is: " s ++
      shown_lines "The computer's page is: " c ++
      asked ++
      shown_lines "Your page is: " u ++
      results /\
    map (fun q => (fst (fst q), snd (fst q))) (searches tr) =
      [(Some s, Some c); (Some s, Some u)] /\
    forall p : Page,
      (str_len (summary p) <= 500 -> slice_to 500 (summary p) = summary p) /\
      chars (slice_to 500 (summary p)) = take 500 (chars (summary p)) /\
      str_len (slice_to 500 (summary p)) = Nat.min 500 (str_len (summary p)) /\
      exists rest, summary p = slice_to 500 (summary p) +++ rest.
Proof.
  intros H. apply round_ret in H as (g & _ & -> & ->).
  exists (start_found g), (computer_found g), (user_found g).
  eexists. eexists. split; [apply round_trace_resolved|]. split; [|split].
  - rewrite round_trace_printed. rewrite (app_assoc (printed _) [_]). reflexivity.
  - rewrite round_trace_searches. reflexivity.
  - intros p. split; [apply slice_to_short|apply slice_to_prefix].
Qed.

Lemma round_shows_summaries_witness :
  exists s c u asked results,
    resolved sample_trace = [s; c; u] /\
    printed sample_trace =
      shown_lines "The starting page is: " s ++
      shown_lines "The computer's page is: " c ++
      asked ++
      shown_lines "Your page is: " u ++
      results /\
    map (fun q => (fst (fst q), snd (fst q))) (searches sample_trace) =
      [(Some s, Some c); (Some s, Some u)] /\
    forall p : Page,
      (str_len (summary p) <= 500 -> slice_to 500 (summary p) = summary p) /\
      chars (slice_to 500 (summary p)) = take 500 (chars (summary p)) /\
      str_len (slice_to 500 (summary p)) = Nat.min 500 (str_len (summary p)) /\
      exists rest, summary p = slice_to 500 (summary p) +++ rest.
Proof. exact (round_shows_summaries sample_words sample_trace sample_round sample_run). Defined.

(** C9. In a round, [find_short_path] is called exactly twice: first from the
    start page to the computer's page, then from the same start page to the
    user's page, these being the pages the three retry loops resolved, in
    that order. *)
Theorem round_two_searches (words : list string) (tr : list call) (rd : Round) :
  run (round words) tr (Returned rd) ->
  exists s c u r1 r2,
    resolved tr = [s; c; u] /\
    searches tr = [(Some s, Some c, r1); (Some s, Some u, r2)].
Proof.
  intros H. apply round_ret in H as (g & _ & -> & ->).
  exists (start_found g), (computer_found g), (user_found g),
         (computer_result g), (user_result g).
  split; [apply round_trace_resolved|apply round_trace_searches].
Qed.

Lemma round_two_searches_witness :
  exists s c u r1 r2,
    resolved sample_trace = [s; c; u] /\
    searches sample_trace = [(Some s, Some c, r1); (Some s, Some u, r2)].
Proof. exact (round_two_searches sample_words sample_trace sample_round sample_run). Defined.

(** C10. No run of [main] ends in the [AttributeError] that reading [title]
    or [summary] of [None] raises: when the fields are read, the retry loop
    before has left a page object in the variable. *)
Theorem attribute_reads_safe (tr : list call) (o : ending unit) :
  run main tr o ->
  forall exn, o = Raised exn -> exn <> "AttributeError".
Proof.
  intros H exn ->. apply main_run in H as [(_ & _ & H)|(m & c & ws & rest & _ & _ & H)].
  - destruct (H exn eq_refl) as [->|Hf]; [discriminate|].
    fail_cases Hf; discriminate.
  - apply game_loop_safe in H as [_ H].
    destruct (H exn eq_refl) as [[-> _]| ->]; discriminate.
Qed.

Lemma attribute_reads_safe_witness : "IndexError" <> "AttributeError".
Proof.
  exact (attribute_reads_safe empty_list_trace (Raised "IndexError")
           empty_list_run "IndexError" eq_refl).
Defined.

(** * Further properties of the game *)

(** ** The stages of [main] *)

Ltac units := repeat match goal with v : unit |- _ => destruct v end.

Ltac stage_leaf :=
  cbn [app]; units;
  first
    [ solve [left; split; [first [left; reflexivity|right; reflexivity]
                          |split; [repeat constructor|split; [cbn; lia|]]];
             first
               [ match goal with
                 | Hm : String.eqb (strip ?mode) _ = _ |- _ =>
                     exists mode;
                     unfold started_trace, welcome_trace, hard_selected, announcement;
                     rewrite Hm; eexists; reflexivity
                 end
               | match goal with
                 | |- context [Call (Input "Choose mode (1 or 2, default=1): ") ?mode] =>
                     exists mode; eexists; reflexivity
                 end
               | exists ""; eexists; reflexivity ]]
    | solve [right; left;
             match goal with
             | Hm : String.eqb (strip ?mode) _ = _, Hc : String.eqb _ "q" = true |- _ =>
                 apply String.eqb_eq in Hc; subst;
                 exists mode; split; [|auto];
                 unfold started_trace, welcome_trace, hard_selected, announcement;
                 rewrite Hm; reflexivity
             end]
    | solve [right; right; left;
             match goal with
             | Hm : String.eqb (strip ?mode) _ = _, Hc : String.eqb ?cmd "q" = false |- _ =>
                 exists mode, cmd; split; [exact Hc|split];
                 [unfold started_trace, welcome_trace, hard_selected, announcement;
                  rewrite Hm; reflexivity
                 |first [left; reflexivity
                        |right; eexists; split; [|reflexivity]; repeat constructor]]
             end] ].

Ltac stage_step :=
  lazymatch goal with
  | |- forall exn, fails _ exn -> _ =>
      let Hf := fresh "Hf" in intros ? Hf; fail_cases Hf
  | |- follows (ITree.bind (ITree.trigger _) _) _ =>
      apply follows_bind_trigger; [| |intros ? _]
  | |- follows (ITree.bind _ _) _ => apply follows_bind
  | |- follows (ITree.trigger _) _ =>
      apply follows_trigger; [| |intros ? _; split]
  | |- follows (Ret _) _ => apply follows_Ret
  | |- follows (if ?b then _ else _) _ =>
      let E := fresh "E" in destruct b eqn:E
  | |- follows (game_loop _) _ => fail
  | |- _ => stage_leaf
  end; cbn beta iota.

(** Every run of [main] is in one of the four stages. *)
Lemma main_stages tr o : run main tr o -> main_stage tr o.
Proof.
  revert tr o. change (follows main main_stage).
  unfold main, welcome, print, input, set_hard_mode, main_stage.
  repeat stage_step.
  all: intros tr o H; right; right; right; cbn [app]; units.
  all: match goal with
       | Hm : String.eqb (strip ?mode) _ = _, Hc : String.eqb ?cmd "q" = false,
         H : run (game_loop ?ws) _ _ |- _ =>
           exists mode, cmd, ws, tr; split; [exact Hc|split; [|exact H]];
           unfold started_trace, welcome_trace, hard_selected, announcement;
           rewrite Hm; reflexivity
       end.
Qed.

(** ** The calls of the game loop *)

Ltac loop_steps :=
  repeat first
    [ apply safe_Ret
    | apply safe_trigger; [intros; cbn; solve [auto|split; eauto]|no_failure]
    | apply safe_bind; [|intros ? ? ?] ].

Lemma draw_loop_calls words :
  safe (while_not (w <- random_choice words;; get_page w))
       (loop_call words) (round_exn words).
Proof.
  apply safe_iter. intros [p|]; cbn [truthy_page]; [apply safe_Ret|].
  unfold random_choice, get_page. apply safe_bind; [|intros; apply safe_Ret].
  apply safe_bind.
  - destruct words as [|w0 words]; [apply safe_raise; left; split; reflexivity|].
    apply safe_trigger; [|no_failure]. intros w Hw. split; [reflexivity|exact Hw].
  - intros. apply safe_trigger; [intros; exact I|no_failure].
Qed.

Lemma ask_loop_calls words :
  safe (while_not ask_body) (loop_call words) (round_exn words).
Proof.
  apply safe_iter. intros [p|]; cbn [truthy_page]; [apply safe_Ret|].
  unfold ask_body, print, input, get_page. loop_steps.
  match goal with |- safe (if truthy_page ?q then _ else _) _ _ => destruct q end;
    cbn [truthy_page]; loop_steps.
Qed.

Lemma show_page_calls words label p :
  safe (show_page label (Some p)) (loop_call words) (round_exn words).
Proof. unfold show_page, getattr, print. loop_steps. Qed.

Lemma report_calls words header path :
  safe (report header path) (loop_call words) (round_exn words).
Proof.
  unfold report, print. apply safe_bind; [loop_steps|intros _ _ _].
  destruct (truthy_path path); loop_steps.
Qed.

Lemma round_calls words : safe (round words) (loop_call words) (round_exn words).
Proof.
  unfold round. fold ask_body.
  apply safe_bind; [apply draw_loop_calls|intros ? ? H].
  apply draw_loop_ret in H as (? & ? & s & -> & _).
  apply safe_bind; [apply show_page_calls|intros _ _ _].
  apply safe_bind; [apply draw_loop_calls|intros ? ? H].
  apply draw_loop_ret in H as (? & ? & c & -> & _).
  apply safe_bind; [apply show_page_calls|intros _ _ _].
  apply safe_bind; [apply ask_loop_calls|intros ? ? H].
  apply ask_loop_ret in H as (? & ? & u & -> & _).
  apply safe_bind; [apply show_page_calls|intros _ _ _].
  unfold find_short_path, print.
  apply safe_bind; [loop_steps|intros _ _ _].
  apply safe_bind; [loop_steps|intros _ ? _].
  apply safe_bind; [apply report_calls|intros _ ? _].
  apply safe_bind; [loop_steps|intros _ ? _].
  apply safe_bind; [apply report_calls|intros _ ? _].
  apply safe_bind; [|intros; apply safe_Ret].
  repeat match goal with |- safe (if ?b then _ else _) _ _ => destruct b end;
    loop_steps.
Qed.

Lemma game_loop_calls words :
  safe (game_loop words) (loop_call words) (round_exn words).
Proof.
  unfold game_loop. apply safe_iter. intros _.
  apply safe_bind; [apply round_calls|intros _ _ _].
  unfold goodbye, print, input.
  apply safe_bind; [loop_steps|intros _ _ _].
  apply safe_bind; [loop_steps|intros _ cmd _].
  destruct (String.eqb cmd "q"); loop_steps.
Qed.

(** Over an empty word list the game loop makes no call and does not
    return. *)
Lemma game_loop_empty tr o :
  run (game_loop []) tr o -> tr = [] /\ (o = Raised "IndexError" \/ o = Running).
Proof.
  intros H. apply run_iter_inv in H.
  assert (Hbody : forall (k : Round -> game (unit + unit)) t o',
             run (ITree.bind (round []) k) t o' ->
             t = [] /\ (o' = Raised "IndexError" \/ o' = Running)).
  { intros k t o' Hb.
    apply run_bind_inv in Hb as [(t1 & rd & t2 & Hb & _)|(o1 & Hb & Hc)].
    - apply round_empty in Hb as [_ [Hb|Hb]]; discriminate.
    - apply round_empty in Hb as [-> [->| ->]]; injection Hc as <-; auto. }
  destruct H as [i tr r H|i j tr1 tr2 o H1 H2|i tr o' o H Hc].
  - apply Hbody in H as [_ [H|H]]; discriminate.
  - apply Hbody in H1 as [_ [H|H]]; discriminate.
  - apply Hbody in H as [-> [->| ->]]; injection Hc as <-; auto.
Qed.

(** ** Before the first round *)

Lemma prologue_started mode cmd words :
  prologue_trace mode cmd words =
  started_trace mode cmd ++ [Call (ReadLines "dictionary.txt") words].
Proof.
  unfold prologue_trace, started_trace, announcement. rewrite <- app_assoc.
  reflexivity.
Qed.

Lemma started_quiet mode cmd :
  Forall prologue_call (started_trace mode cmd) /\
  typed (started_trace mode cmd) = [mode; cmd] /\
  reads (started_trace mode cmd) = [] /\
  lookups (started_trace mode cmd) = [] /\
  searches (started_trace mode cmd) = [] /\
  drawn (started_trace mode cmd) = [] /\
  policies (started_trace mode cmd) = [hard_selected mode].
Proof. split; [repeat constructor|repeat split]. Qed.

Lemma prologue_call_read c : prologue_call c -> read_of c = [].
Proof. destruct c as [X e x]. destruct e; cbn; intros []; reflexivity. Qed.

Lemma round_call_read c : round_call c -> read_of c = [].
Proof. destruct c as [X e x]. destruct e; cbn; intros []; reflexivity. Qed.

Lemma game_loop_reads words tr o : run (game_loop words) tr o -> reads tr = [].
Proof.
  intros H. apply game_loop_safe in H as [F _]. apply flat_map_nil.
  eapply Forall_impl; [exact F|]. exact round_call_read.
Qed.

Lemma quit_run : run main quit_run_trace (Returned tt).
Proof. apply (exec_run 100 quit_script). vm_compute. reflexivity. Defined.

(** X1. The line typed at the second prompt decides whether the game
    starts. When it is [q], [main] returns at once: the run is the welcome,
    the mode selection and the two prompts, no file is read, no page is
    looked up or searched, nothing is raised. Any other line, [Q] or one
    with a blank included, starts the game: the next call reads
    [dictionary.txt], and [main] does not return before it has (it is still
    to read the file, or the file could not be read). *)
Theorem quit_at_second_prompt (tr : list call) (o : ending unit) (cmd : string) :
  run main tr o ->
  typed tr !! 1 = Some cmd ->
  (cmd = "q" ->
     (exists mode, tr = started_trace mode "q") /\
     reads tr = [] /\ lookups tr = [] /\ searches tr = [] /\
     forall exn, o <> Raised exn) /\
  (cmd <> "q" ->
     exists mode rest,
       tr = started_trace mode cmd ++ rest /\
       ((rest = [] /\ forall u, o <> Returned u) \/
        exists words rest',
          rest = Call (ReadLines "dictionary.txt") words :: rest')).
Proof.
  intros H Ht.
  apply main_stages in H
    as [(Hb & F & L & _)|[(m & -> & Ho)|[(m & c & Hc & -> & Hfile)|(m & c & ws & rest & Hc & -> & H)]]].
  - apply lookup_lt_Some in Ht. lia.
  - injection Ht as <-. split; [|congruence]. intros _.
    split; [eauto|]. repeat split. intros exn ->. destruct Ho; discriminate.
  - injection Ht as <-. apply String.eqb_neq in Hc. split; [congruence|].
    intros _. exists m, []. rewrite app_nil_r. split; [reflexivity|]. left.
    split; [reflexivity|]. intros u ->.
    destruct Hfile as [E|(exn & _ & E)]; discriminate E.
  - unfold typed in Ht. rewrite flat_map_app in Ht. injection Ht as <-.
    apply String.eqb_neq in Hc. split; [congruence|].
    intros _. exists m. eexists. split; [reflexivity|]. right. eauto.
Qed.

Lemma quit_at_second_prompt_witness :
  (exists mode, quit_run_trace = started_trace mode "q") /\
  reads quit_run_trace = [] /\ lookups quit_run_trace = [] /\
  searches quit_run_trace = [] /\
  forall exn, Returned tt <> Raised exn.
Proof.
  apply (quit_at_second_prompt quit_run_trace (Returned tt) "q" quit_run);
    reflexivity.
Defined.

(** X2. Every run of [main], complete or not, is a beginning of — or begins
    with — the welcome, the mode prompt, one policy setting and its
    announcement, and the second prompt. The line printed after the policy
    is set announces that same mode, and the mode set is hard exactly when
    the line typed is the character [2] between two runs, possibly empty, of
    whitespace characters. *)
Theorem start_of_every_run (tr : list call) (o : ending unit) :
  run main tr o ->
  exists mode cmd,
    (tr `prefix_of` started_trace mode cmd \/
     started_trace mode cmd `prefix_of` tr) /\
    (hard_selected mode = true <->
     exists l r,
       chars mode = l ++ ["2"] ++ r /\
       Forall (fun ch => is_space_char ch = true) l /\
       Forall (fun ch => is_space_char ch = true) r).
Proof.
  intros H.
  assert (Hs : forall mode,
             hard_selected mode = true <->
             exists l r,
               chars mode = l ++ ["2"] ++ r /\
               Forall (fun ch => is_space_char ch = true) l /\
               Forall (fun ch => is_space_char ch = true) r).
  { intros mode. unfold hard_selected. rewrite String.eqb_eq.
    apply (strip_single mode "2"). reflexivity. }
  apply main_stages in H
    as [(Hb & F & L & m & P)|[(m & -> & Ho)|[(m & c & Hc & -> & Hfile)|(m & c & ws & rest & Hc & -> & H)]]].
  - exists m, "". auto.
  - exists m, "q". split; [left; reflexivity|apply Hs].
  - exists m, c. split; [left; reflexivity|apply Hs].
  - exists m, c. split; [right; eexists; reflexivity|apply Hs].
Qed.

Lemma start_of_every_run_witness :
  exists mode cmd,
    (two_rounds_trace `prefix_of` started_trace mode cmd \/
     started_trace mode cmd `prefix_of` two_rounds_trace) /\
    (hard_selected mode = true <->
     exists l r,
       chars mode = l ++ ["2"] ++ r /\
       Forall (fun ch => is_space_char ch = true) l /\
       Forall (fun ch => is_space_char ch = true) r).
Proof. exact (start_of_every_run two_rounds_trace (Returned tt) two_rounds_run). Defined.

(** X3. An empty word list. When [dictionary.txt] has no lines, [main] stops
    right after reading it: the first [random.choice] raises [IndexError],
    no page is looked up, and the run never returns. *)
Theorem empty_dictionary (tr : list call) (o : ending unit) :
  run main tr o ->
  forall path,
    (path, []) ∈ reads tr ->
    (exists mode cmd, tr = prologue_trace mode cmd []) /\
    (o = Raised "IndexError" \/ o = Running).
Proof.
  intros H path Hp.
  apply main_stages in H
    as [(Hb & F & L & _)|[(m & -> & Ho)|[(m & c & Hc & -> & Hfile)|(m & c & ws & rest & Hc & -> & H)]]].
  - exfalso.
    assert (E : reads tr = []).
    { apply flat_map_nil. eapply Forall_impl; [exact F|exact prologue_call_read]. }
    rewrite E in Hp. inversion Hp.
  - inversion Hp.
  - inversion Hp.
  - pose proof (game_loop_reads _ _ _ H) as Er.
    unfold reads in Hp. rewrite flat_map_app in Hp.
    fold (reads (started_trace m c)) in Hp.
    rewrite (proj1 (proj2 (proj2 (started_quiet m c)))) in Hp.
    cbn [app flat_map read_of] in Hp. fold (reads rest) in Hp.
    rewrite Er in Hp. apply list_elem_of_singleton in Hp. injection Hp as _ <-.
    apply game_loop_empty in H as [-> Ho]. split; [|exact Ho].
    exists m, c. rewrite prologue_started. reflexivity.
Qed.

Lemma empty_dictionary_witness :
  (exists mode cmd, empty_list_trace = prologue_trace mode cmd []) /\
  (@Raised unit "IndexError" = Raised "IndexError" \/
   @Raised unit "IndexError" = Running).
Proof.
  apply (empty_dictionary empty_list_trace (Raised "IndexError")
           empty_list_run "dictionary.txt").
  vm_compute. repeat constructor.
Defined.

(** ** Every run of the game *)

Lemma Forall_flat_map_of {A B : Type} (C : A -> Prop) (Q : B -> Prop)
  (f : A -> list B) (l : list A) :
  (forall a, C a -> Forall Q (f a)) -> Forall C l -> Forall Q (flat_map f l).
Proof.
  intros Hf F. induction F as [|a l Ha F IH]; cbn; [constructor|].
  apply Forall_app. auto.
Qed.

(** X4. The word list. In every run of [main] the only file read is
    [dictionary.txt], at most once, and every [random.choice] of the run
    draws from the lines read there and gives one of them. *)
Theorem words_from_dictionary (tr : list call) (o : ending unit) :
  run main tr o ->
  exists dict : list (list string),
    length dict <= 1 /\
    reads tr = map (fun l => ("dictionary.txt", l)) dict /\
    forall seq w, Call (RandomChoice seq) w ∈ tr -> dict = [seq] /\ w ∈ seq.
Proof.
  intros H.
  assert (Hp : forall t seq w,
             Forall prologue_call t -> Call (RandomChoice seq) w ∈ t -> False).
  { intros t seq w F Hin. rewrite Forall_forall in F. exact (F _ Hin). }
  assert (Hr : forall t, Forall prologue_call t -> reads t = []).
  { intros t F. apply flat_map_nil. eapply Forall_impl; [exact F|].
    exact prologue_call_read. }
  apply main_stages in H
    as [(Hb & F & L & _)|[(m & -> & Ho)|[(m & c & Hc & -> & Hfile)|(m & c & ws & rest & Hc & -> & H)]]].
  - exists []. split; [cbn; lia|]. split; [auto|].
    intros seq w Hin. destruct (Hp _ _ _ F Hin).
  - exists []. split; [cbn; lia|]. split; [reflexivity|].
    intros seq w Hin. destruct (Hp _ _ _ (proj1 (started_quiet m "q")) Hin).
  - exists []. split; [cbn; lia|]. split; [reflexivity|].
    intros seq w Hin. destruct (Hp _ _ _ (proj1 (started_quiet m c)) Hin).
  - exists [ws]. split; [cbn; lia|]. split.
    + unfold reads. rewrite flat_map_app. fold (reads (started_trace m c)).
      rewrite (Hr _ (proj1 (started_quiet m c))). cbn [app flat_map read_of].
      fold (reads rest). rewrite (game_loop_reads _ _ _ H). reflexivity.
    + intros seq w Hin. apply elem_of_app in Hin as [Hin|Hin].
      { destruct (Hp _ _ _ (proj1 (started_quiet m c)) Hin). }
      apply elem_of_cons in Hin as [E|Hin].
      { apply (f_equal read_of) in E. discriminate. }
      destruct (game_loop_calls _ _ _ H) as [F _].
      rewrite Forall_forall in F. destruct (F _ Hin) as [-> Hw]. auto.
Qed.

Lemma words_from_dictionary_witness :
  exists dict : list (list string),
    length dict <= 1 /\
    reads two_rounds_trace = map (fun l => ("dictionary.txt", l)) dict /\
    forall seq w,
      Call (RandomChoice seq) w ∈ two_rounds_trace -> dict = [seq] /\ w ∈ seq.
Proof. exact (words_from_dictionary two_rounds_trace (Returned tt) two_rounds_run). Defined.

(** X5. In every run of [main], complete or not, [find_short_path] is
    only ever called on two page objects: never on the [None] of a failed
    lookup. *)
Theorem searches_between_pages (tr : list call) (o : ending unit) :
  run main tr o ->
  Forall (fun s => is_Some (fst (fst s)) /\ is_Some (snd (fst s))) (searches tr).
Proof.
  intros H.
  assert (Hp : forall t, Forall prologue_call t -> searches t = []).
  { intros t F. apply flat_map_nil. eapply Forall_impl; [exact F|].
    exact prologue_call_search. }
  apply main_stages in H
    as [(Hb & F & L & _)|[(m & -> & Ho)|[(m & c & Hc & -> & Hfile)|(m & c & ws & rest & Hc & -> & H)]]].
  - rewrite (Hp _ F). constructor.
  - constructor.
  - constructor.
  - unfold searches. rewrite flat_map_app. fold (searches (started_trace m c)).
    rewrite (Hp _ (proj1 (started_quiet m c))). cbn [app flat_map search_of].
    destruct (game_loop_calls _ _ _ H) as [F _].
    eapply Forall_flat_map_of; [|exact F].
    intros [X e x] Hc'. destruct e; cbn in *; try constructor; auto.
Qed.

Lemma searches_between_pages_witness :
  Forall (fun s => is_Some (fst (fst s)) /\ is_Some (snd (fst s)))
         (searches two_rounds_trace).
Proof. exact (searches_between_pages two_rounds_trace (Returned tt) two_rounds_run). Defined.

(** ** What a round prints *)

(** X6. The verdict. The last line a completed round prints is the verdict:
    [I win!] when the computer's score is the greater, [You win!] when the
    user's is, [It's a tie!] when the scores are equal, which is the case in
    particular when neither search gave a path. *)
Theorem round_verdict (words : list string) (tr : list call) (rd : Round) :
  run (round words) tr (Returned rd) ->
  (user_score rd < computer_score rd -> last (printed tr) = Some "I win!") /\
  (computer_score rd < user_score rd -> last (printed tr) = Some "You win!") /\
  (computer_score rd = user_score rd -> last (printed tr) = Some "It's a tie!") /\
  (truthy_path (computer_path rd) = false ->
   truthy_path (user_path rd) = false ->
   last (printed tr) = Some "It's a tie!").
Proof.
  intros H. apply round_ret in H as (g & _ & -> & ->).
  rewrite round_trace_printed, !app_assoc, last_snoc. cbn [round_vars computer_score user_score computer_path user_path].
  unfold verdict, score.
  split; [|split; [|split]].
  - intros L. apply Nat.ltb_lt in L. rewrite L. reflexivity.
  - intros L. destruct (Nat.ltb_spec (if truthy_path (user_result g) then len (user_result g) else 100)
                                     (if truthy_path (computer_result g) then len (computer_result g) else 100));
      [lia|]. apply Nat.ltb_lt in L. rewrite L. reflexivity.
  - intros E. rewrite E, Nat.ltb_irrefl. reflexivity.
  - intros -> ->. reflexivity.
Qed.

Lemma round_verdict_witness :
  computer_score sample_round < user_score sample_round /\
  last (printed sample_trace) = Some "You win!".
Proof.
  assert (L : computer_score sample_round < user_score sample_round).
  { vm_compute. lia. }
  split; [exact L|].
  exact (proj1 (proj2 (round_verdict sample_words sample_trace sample_round sample_run)) L).
Defined.

Lemma failed_ask_printed failed :
  printed (flat_map failed_ask failed) =
  flat_map (fun n => ["What would you like your page to be?"; not_found n]) failed.
Proof.
  induction failed as [|n l IH]; [reflexivity|].
  cbn [flat_map]. unfold printed in *. rewrite flat_map_app, IH. reflexivity.
Qed.

Lemma reported_printed header path :
  printed (reported header path) = header :: result_lines path (score path).
Proof. destruct path as [[|x l]|]; reflexivity. Qed.

(** X7. Names that do not resolve. In a completed round the user is asked
    for a page once more than the number of names that failed, and every
    failed name is answered by exactly one message that quotes it; a word
    drawn for the start page or the computer's page that fails is redrawn
    without any message. *)
Theorem round_failures (words : list string) (tr : list call) (rd : Round) :
  run (round words) tr (Returned rd) ->
  exists failed name s c u results,
    typed tr = failed ++ [name] /\
    Forall (fun n => (n, None) ∈ lookups tr) failed /\
    (name, Some u) ∈ lookups tr /\
    start_page rd = Some s /\ computer_page rd = Some c /\ user_page rd = Some u /\
    printed tr =
      shown_lines "The starting page is: " s ++
      shown_lines "The computer's page is: " c ++
      flat_map (fun n => ["What would you like your page to be?"; not_found n])
               failed ++
      ["What would you like your page to be?"] ++
      shown_lines "Your page is: " u ++ results.
Proof.
  intros H. apply round_ret in H as (g & _ & -> & ->).
  exists (user_failed g), (user_name g), (start_found g), (computer_found g),
    (user_found g). eexists.
  split; [apply round_trace_typed|].
  rewrite round_trace_lookups, round_trace_printed, failed_ask_printed.
  split; [|split; [|repeat split]].
  - apply Forall_forall. intros n Hn. rewrite !elem_of_app. do 4 right. left.
    exact (list_elem_of_fmap_2 (fun w => (w, @None Page)) _ _ Hn).
  - rewrite !elem_of_app. do 5 right. apply list_elem_of_singleton. reflexivity.
Qed.

Lemma round_failures_witness :
  exists failed name s c u results,
    typed sample_trace = failed ++ [name] /\
    Forall (fun n => (n, None) ∈ lookups sample_trace) failed /\
    (name, Some u) ∈ lookups sample_trace /\
    start_page sample_round = Some s /\ computer_page sample_round = Some c /\
    user_page sample_round = Some u /\
    printed sample_trace =
      shown_lines "The starting page is: " s ++
      shown_lines "The computer's page is: " c ++
      flat_map (fun n => ["What would you like your page to be?"; not_found n])
               failed ++
      ["What would you like your page to be?"] ++
      shown_lines "Your page is: " u ++ results.
Proof. exact (round_failures sample_words sample_trace sample_round sample_run). Defined.

(** X8. The results shown. A completed round ends its output with the
    computer's result, the user's result and the verdict. For a path that
    was found the length displayed is the score of that side; a path that
    was not found is displayed as infinite, whatever its score. *)
Theorem round_results_shown (words : list string) (tr : list call) (rd : Round) :
  run (round words) tr (Returned rd) ->
  exists before,
    printed tr =
      before ++
      ["Calculating Bacon paths..." +++ nl; "Computer's path:"] ++
      result_lines (computer_path rd) (computer_score rd) ++
      ["Your path:"] ++
      result_lines (user_path rd) (user_score rd) ++
      [verdict (computer_score rd) (user_score rd)].
Proof.
  intros H. apply round_ret in H as (g & _ & -> & ->).
  rewrite round_trace_printed, !reported_printed.
  cbn [round_vars computer_score user_score computer_path user_path].
  exists (shown_lines "The starting page is: " (start_found g) ++
          shown_lines "The computer's page is: " (computer_found g) ++
          printed (flat_map failed_ask (user_failed g)) ++
          ["What would you like your page to be?"] ++
          shown_lines "Your page is: " (user_found g)).
  rewrite <- !app_assoc. reflexivity.
Qed.

Lemma round_results_shown_witness :
  exists before,
    printed sample_trace =
      before ++
      ["Calculating Bacon paths..." +++ nl; "Computer's path:"] ++
      result_lines (computer_path sample_round) (computer_score sample_round) ++
      ["Your path:"] ++
      result_lines (user_path sample_round) (user_score sample_round) ++
      [verdict (computer_score sample_round) (user_score sample_round)].
Proof. exact (round_results_shown sample_words sample_trace sample_round sample_run). Defined.

(** ** Finished games *)

Lemma main_finished tr u :
  run main tr (Returned u) ->
  (exists mode, tr = started_trace mode "q") \/
  exists mode cmd words rounds final,
    cmd <> "q" /\
    Forall (fun gc : Played * string => snd gc <> "q") rounds /\
    tr = prologue_trace mode cmd words ++ game_trace words rounds final /\
    run (game_loop words) (game_trace words rounds final) (Returned u).
Proof.
  intros H.
  apply main_stages in H
    as [([E|E] & _)|[(m & -> & Ho)
                    |[(m & c & Hc & -> & [E|(exn & _ & E)])
                     |(m & c & ws & rest & Hc & -> & H)]]];
    try discriminate.
  - left. eauto.
  - right. destruct (game_loop_ret _ _ _ H) as (rounds & final & F & _ & ->).
    exists m, c, ws, rounds, final. split; [apply String.eqb_neq, Hc|].
    split; [|split; [|exact H]].
    + eapply Forall_impl; [exact F|]. intros gc [_ Hq]. apply String.eqb_neq, Hq.
    + rewrite prologue_started, <- app_assoc. reflexivity.
Qed.

Lemma resolved_app t1 t2 : resolved (t1 ++ t2) = resolved t1 ++ resolved t2.
Proof. unfold resolved, lookups. rewrite !flat_map_app. reflexivity. Qed.

Lemma game_trace_resolved words rounds final :
  length (resolved (game_trace words rounds final)) = 3 * S (length rounds).
Proof.
  unfold game_trace. rewrite !resolved_app, !length_app, round_trace_resolved.
  change (resolved (again_trace "q")) with (@nil Page).
  change (resolved goodbye_trace) with (@nil Page). cbn [length].
  induction rounds as [|[g c] rounds IH]; [reflexivity|].
  cbn [flat_map fst snd length]. rewrite !resolved_app, !length_app, round_trace_resolved.
  change (resolved (again_trace c)) with (@nil Page). cbn [length]. lia.
Qed.

Lemma pairs_length (rounds : list Played) :
  length (flat_map pair_of_searches rounds) = 2 * length rounds.
Proof. induction rounds as [|g l IH]; cbn [flat_map length app pair_of_searches]; lia. Qed.

(** X9. How a game ends. A run of [main] that returns was either left at
    the second prompt, or is the prologue followed by complete rounds, each
    followed by the question whether to play again: every answer but the
    last is a line other than [q] and starts another round, the last is [q]
    and is followed by the two farewell lines. In both cases the last line
    typed is [q]. *)
Theorem finished_game (tr : list call) (u : unit) :
  run main tr (Returned u) ->
  last (typed tr) = Some "q" /\
  ((exists mode, tr = started_trace mode "q") \/
   exists mode cmd words rounds final,
     cmd <> "q" /\
     Forall (fun gc : Played * string => snd gc <> "q") rounds /\
     tr = prologue_trace mode cmd words ++
          flat_map (fun gc => round_trace words (fst gc) ++
                              [Call (Print (nl +++ nl +++ "Play again? Hit Enter for another round, or type 'q' to quit")) tt;
                               Call (Input "") (snd gc)]) rounds ++
          round_trace words final ++
          [Call (Print (nl +++ nl +++ "Play again? Hit Enter for another round, or type 'q' to quit")) tt;
           Call (Input "") "q"] ++
          goodbye_trace).
Proof.
  intros H. apply main_finished in H
    as [(m & ->)|(m & c & ws & rounds & final & Hc & F & -> & _)].
  - split; [reflexivity|]. left. eauto.
  - split.
    + unfold game_trace, typed. rewrite !flat_map_app.
      change (flat_map typed_of goodbye_trace) with (@nil string).
      change (flat_map typed_of (again_trace "q")) with ["q"].
      rewrite app_nil_r, !app_assoc. apply last_snoc.
    + right. exists m, c, ws, rounds, final. auto.
Qed.

Lemma finished_game_witness :
  last (typed two_rounds_trace) = Some "q" /\
  ((exists mode, two_rounds_trace = started_trace mode "q") \/
   exists mode cmd words rounds final,
     cmd <> "q" /\
     Forall (fun gc : Played * string => snd gc <> "q") rounds /\
     two_rounds_trace =
       prologue_trace mode cmd words ++
       flat_map (fun gc => round_trace words (fst gc) ++
                           [Call (Print (nl +++ nl +++ "Play again? Hit Enter for another round, or type 'q' to quit")) tt;
                            Call (Input "") (snd gc)]) rounds ++
       round_trace words final ++
       [Call (Print (nl +++ nl +++ "Play again? Hit Enter for another round, or type 'q' to quit")) tt;
        Call (Input "") "q"] ++
       goodbye_trace).
Proof. exact (finished_game two_rounds_trace tt two_rounds_run). Defined.

(** X10. What a finished game has done. In a run of [main] that returns,
    with [n] the number of rounds played, the policy was set once, the
    searches are [2 * n] and the successful lookups [3 * n]; the word list
    was read once when a round was played and not at all otherwise. *)
Theorem game_totals (tr : list call) (u : unit) :
  run main tr (Returned u) ->
  exists n,
    length (policies tr) = 1 /\
    length (searches tr) = 2 * n /\
    length (resolved tr) = 3 * n /\
    length (reads tr) = Nat.min 1 n.
Proof.
  intros H. apply main_finished in H
    as [(m & ->)|(m & c & ws & rounds & final & Hc & F & -> & H)].
  - exists 0. repeat split.
  - exists (S (length rounds)). rewrite prologue_started, <- app_assoc.
    pose proof (started_quiet m c) as (_ & _ & Er & El & Es & _ & Ep).
    split; [|split; [|split]].
    + unfold policies. rewrite !flat_map_app. fold (policies (started_trace m c)).
      rewrite Ep. cbn [flat_map policy_of app].
      destruct (game_loop_safe _ _ _ H) as [Fc _].
      rewrite (flat_map_nil policy_of (game_trace ws rounds final)); [reflexivity|].
      eapply Forall_impl; [exact Fc|exact round_call_policy].
    + unfold searches. rewrite !flat_map_app. fold (searches (started_trace m c)).
      rewrite Es. cbn [flat_map search_of app].
      fold (searches (game_trace ws rounds final)).
      rewrite game_trace_searches, pairs_length, length_app, length_map. cbn. lia.
    + rewrite !resolved_app. unfold resolved at 1. rewrite El.
      cbn [flat_map app length]. change (resolved [Call (ReadLines "dictionary.txt") ws]) with (@nil Page).
      cbn [app]. apply game_trace_resolved.
    + unfold reads. rewrite !flat_map_app. fold (reads (started_trace m c)).
      rewrite Er. cbn [flat_map read_of app]. fold (reads (game_trace ws rounds final)).
      rewrite (game_loop_reads _ _ _ H). reflexivity.
Qed.

Lemma game_totals_witness :
  exists n,
    length (policies two_rounds_trace) = 1 /\
    length (searches two_rounds_trace) = 2 * n /\
    length (resolved two_rounds_trace) = 3 * n /\
    length (reads two_rounds_trace) = Nat.min 1 n.
Proof. exact (game_totals two_rounds_trace tt two_rounds_run). Defined.
